(** * GLINT2 grid engine: a shallow embedding of [slib/glint2/Grid.cpp] and
      [slib/icebin/eigen_types.cpp], with the properties of the mesh
      container, the geometry routines, the mesh filter, the mesh codec and
      the sparse operator builder.

    Conventions of the embedding.
    - A C++ [double] is a primitive IEEE-754 binary64 float; every C++
      arithmetic operator is the corresponding primitive operation, applied
      in the order the source applies it.
    - Entity indices and counters are integers ([Z]).  Their declarations
      live in [glint2/Grid.hpp], which is not among the sources, so no
      machine width is imposed on them.
    - A [Cell] stores pointers to [Vertex] objects.  None of the operations
      embedded here writes through such a pointer, so a cell is represented
      by the sequence of the vertices its pointers designate, in order.
    - A member function that mutates the grid takes the grid and returns the
      new grid; one that may throw returns the grid it leaves behind together
      with either its value or the error. *)

From Stdlib Require Import ZArith List Lia PrimFloat DecimalString.
From stdpp Require Import gmap list strings sorting.

Local Open Scope Z_scope.

(** ** Numbers *)

Definition double : Type := float.

(** ** Errors *)

Inductive error : Type :=
| DuplicateIndex
| SchemaError
| DanglingReference
| OutOfRange.

Inductive result (A : Type) : Type :=
| Ok (a : A)
| Err (e : error).

Arguments Ok {A} a.
Arguments Err {A} e.

#[global] Instance result_ret : MRet result := fun A a => Ok a.

#[global] Instance result_bind : MBind result := fun A B k r =>
  match r with
  | Ok a => k a
  | Err e => Err e
  end.

(** ** Mesh entities *)

Module Vertex.
(** Modelled from the spec: the class [Vertex] is declared in
    [glint2/Grid.hpp], outside the sources; its fields are the ones the
    spec's data model lists and the sources read. *)
Record t : Type := mk { index : Z; x : double; y : double }.

Definition with_index (ix : Z) (v : t) : t :=
  {| index := ix; x := x v; y := y v |}.
End Vertex.

Module Cell.
(** Modelled from the spec: the class [Cell], also declared in
    [glint2/Grid.hpp]: an index, the ordered sequence of its vertices, the
    address tag [(i, j, k)] and the stored area. *)
Record t : Type := mk {
  index : Z;
  vertices : list Vertex.t;
  i : Z;
  j : Z;
  k : Z;
  area : double
}.

Definition with_index (ix : Z) (c : t) : t :=
  {| index := ix; vertices := vertices c; i := i c; j := j c; k := k c;
     area := area c |}.

(** [cell.size()] *)
Definition size (c : t) : nat := length (vertices c).

(** [cell.add_vertex(v)] *)
Definition add_vertex (v : Vertex.t) (c : t) : t :=
  {| index := index c; vertices := vertices c ++ [v]; i := i c; j := j c;
     k := k c; area := area c |}.
End Cell.

(** ** The keyed collection *)

(** Modelled from the spec: the container template [giss::Dict] behind
    [_vertices] and [_cells] is declared outside the sources.  The spec
    describes it as a mapping keyed by integer index, preserving insertion
    order for iteration and addressable by index for lookup; [insert]
    refuses a key that is already present and reports it. *)
Abbreviation Dict V := (list (Z * V)).

(** Modelled from the spec: lookup by key in that container. *)
Fixpoint dict_lookup {V : Type} (key : Z) (d : Dict V) : option V :=
  match d with
  | [] => None
  | (k, v) :: rest => if k =? key then Some v else dict_lookup key rest
  end.

(** Modelled from the spec: [Dict::insert] leaves the collection alone and
    answers [false] when the key is present; otherwise the entry goes last
    in iteration order. *)
Definition dict_insert {V : Type} (key : Z) (val : V) (d : Dict V)
  : Dict V * bool :=
  match dict_lookup key d with
  | Some _ => (d, false)
  | None => (d ++ [(key, val)], true)
  end.

Definition dict_size {V : Type} (d : Dict V) : Z := Z.of_nat (length d).

Definition dict_keys {V : Type} (d : Dict V) : list Z := d.*1.

Definition dict_values {V : Type} (d : Dict V) : list V := d.*2.

(** ** The mesh container *)

Inductive GridType : Type := GENERIC | XY | LONLAT | EXCHANGE.
Inductive Coordinates : Type := CoordXY | CoordLONLAT.
Inductive Parameterization : Type := L0 | L1.

(** Modelled from the spec: the data members of [Grid], declared in
    [glint2/Grid.hpp]; they are the members the sources read and write. *)
Record Grid : Type := mkGrid {
  type : GridType;
  coordinates : Coordinates;
  parameterization : Parameterization;
  name : string;
  sproj : string;
  _vertices : Dict Vertex.t;
  _cells : Dict Cell.t;
  _ncells_full : Z;
  _nvertices_full : Z;
  _max_realized_cell_index : Z;
  _max_realized_vertex_index : Z
}.

Definition with_cells (cs : Dict Cell.t) (g : Grid) : Grid :=
  mkGrid (type g) (coordinates g) (parameterization g) (name g) (sproj g)
    (_vertices g) cs (_ncells_full g) (_nvertices_full g)
    (_max_realized_cell_index g) (_max_realized_vertex_index g).

Definition with_vertices (vs : Dict Vertex.t) (g : Grid) : Grid :=
  mkGrid (type g) (coordinates g) (parameterization g) (name g) (sproj g)
    vs (_cells g) (_ncells_full g) (_nvertices_full g)
    (_max_realized_cell_index g) (_max_realized_vertex_index g).

Definition with_ncells_full (n : Z) (g : Grid) : Grid :=
  mkGrid (type g) (coordinates g) (parameterization g) (name g) (sproj g)
    (_vertices g) (_cells g) n (_nvertices_full g)
    (_max_realized_cell_index g) (_max_realized_vertex_index g).

Definition with_nvertices_full (n : Z) (g : Grid) : Grid :=
  mkGrid (type g) (coordinates g) (parameterization g) (name g) (sproj g)
    (_vertices g) (_cells g) (_ncells_full g) n
    (_max_realized_cell_index g) (_max_realized_vertex_index g).

Definition with_max_realized_cell_index (m : Z) (g : Grid) : Grid :=
  mkGrid (type g) (coordinates g) (parameterization g) (name g) (sproj g)
    (_vertices g) (_cells g) (_ncells_full g) (_nvertices_full g)
    m (_max_realized_vertex_index g).

Definition with_max_realized_vertex_index (m : Z) (g : Grid) : Grid :=
  mkGrid (type g) (coordinates g) (parameterization g) (name g) (sproj g)
    (_vertices g) (_cells g) (_ncells_full g) (_nvertices_full g)
    (_max_realized_cell_index g) m.

(** [Grid::Grid(Type)].  The constructor leaves [_ncells_full] and
    [_nvertices_full] to the class declaration, which is not among the
    sources; by the spec they start "not set", written here as [-1]. *)
Definition new_Grid (ty : GridType) : Grid :=
  {| type := ty;
     coordinates := CoordLONLAT;
     parameterization := L0;
     name := "";
     sproj := "";
     _vertices := [];
     _cells := [];
     _ncells_full := -1;
     _nvertices_full := -1;
     _max_realized_cell_index := 0;
     _max_realized_vertex_index := 0 |}.

Definition ncells_realized (g : Grid) : Z := dict_size (_cells g).
Definition nvertices_realized (g : Grid) : Z := dict_size (_vertices g).

(** Modelled from the spec: the accessors [ncells_full()] and
    [nvertices_full()] are defined in [glint2/Grid.hpp], outside the
    sources.  By the spec they give the recorded size of the unfiltered
    domain once it has been set, and the realized count until then. *)
Definition ncells_full (g : Grid) : Z :=
  if 0 <=? _ncells_full g then _ncells_full g else ncells_realized g.

Definition nvertices_full (g : Grid) : Z :=
  if 0 <=? _nvertices_full g then _nvertices_full g else nvertices_realized g.

(** [Grid::ndata] *)
Definition ndata (g : Grid) : Z :=
  match parameterization g with
  | L1 => nvertices_full g
  | L0 => ncells_full g
  end.

(** [Grid::clear] *)
Definition clear (g : Grid) : Grid := with_cells [] (with_vertices [] g).

(** Modelled from the spec: [get_cell] and [get_vertex] are declared in
    [glint2/Grid.hpp]; they address the collections by index. *)
Definition get_cell (g : Grid) (ix : Z) : option Cell.t :=
  dict_lookup ix (_cells g).

Definition get_vertex (g : Grid) (ix : Z) : option Vertex.t :=
  dict_lookup ix (_vertices g).

(** The entity an insertion files: the argument itself, or the argument
    with the next insertion-order index when its index is the sentinel. *)
Definition assigned_cell (cell : Cell.t) (g : Grid) : Cell.t :=
  if Cell.index cell =? -1 then Cell.with_index (dict_size (_cells g)) cell
  else cell.

Definition assigned_vertex (vertex : Vertex.t) (g : Grid) : Vertex.t :=
  if Vertex.index vertex =? -1
  then Vertex.with_index (dict_size (_vertices g)) vertex
  else vertex.

(** [Grid::add_cell].  The tracker is raised before the insertion is
    attempted, so the grid left behind by a throw carries the raised
    tracker. *)
Definition add_cell (cell : Cell.t) (g : Grid) : Grid * result Cell.t :=
  let cell :=
    if Cell.index cell =? -1 then Cell.with_index (dict_size (_cells g)) cell
    else cell in
  let g :=
    with_max_realized_cell_index
      (Z.max (_max_realized_cell_index g) (Cell.index cell)) g in
  let '(cells', inserted) := dict_insert (Cell.index cell) cell (_cells g) in
  if inserted : bool then (with_cells cells' g, Ok cell)
  else (g, Err DuplicateIndex).

(** [Grid::add_vertex] *)
Definition add_vertex (vertex : Vertex.t) (g : Grid)
  : Grid * result Vertex.t :=
  let vertex :=
    if Vertex.index vertex =? -1
    then Vertex.with_index (dict_size (_vertices g)) vertex
    else vertex in
  let g :=
    with_max_realized_vertex_index
      (Z.max (_max_realized_vertex_index g) (Vertex.index vertex)) g in
  let '(vertices', inserted) :=
    dict_insert (Vertex.index vertex) vertex (_vertices g) in
  if inserted : bool then (with_vertices vertices' g, Ok vertex)
  else (g, Err DuplicateIndex).

(** ** The mesh filter *)

(** The inner loop of the cell pass: [good_vertices.insert(vertex->index)]
    for every vertex of a kept cell. *)
Definition insert_vertex_indices (vs : list Vertex.t) (good : gset Z)
  : gset Z :=
  fold_left (fun s v => {[ Vertex.index v ]} ∪ s) vs good.

(** The cell pass of [Grid::filter_cells]: walks [_cells], keeps or erases
    each cell, and threads the tracker and the set of good vertices. *)
Fixpoint filter_cells_pass (include_cell : Z → bool) (cells : Dict Cell.t)
    (maxc : Z) (good : gset Z) : Dict Cell.t * Z * gset Z :=
  match cells with
  | [] => ([], maxc, good)
  | (key, cell) :: rest =>
      if include_cell (Cell.index cell) then
        let '(kept, m, gd) :=
          filter_cells_pass include_cell rest
            (Z.max maxc (Cell.index cell))
            (insert_vertex_indices (Cell.vertices cell) good) in
        ((key, cell) :: kept, m, gd)
      else filter_cells_pass include_cell rest maxc good
  end.

(** The vertex pass of [Grid::filter_cells]. *)
Fixpoint filter_vertices_pass (good : gset Z) (vertices : Dict Vertex.t)
    (maxv : Z) : Dict Vertex.t * Z :=
  match vertices with
  | [] => ([], maxv)
  | (key, vertex) :: rest =>
      if decide (Vertex.index vertex ∈ good) then
        let '(kept, m) :=
          filter_vertices_pass good rest (Z.max maxv (Vertex.index vertex)) in
        ((key, vertex) :: kept, m)
      else filter_vertices_pass good rest maxv
  end.

(** [Grid::filter_cells] *)
Definition filter_cells (include_cell : Z → bool) (g : Grid) : Grid :=
  let g := with_ncells_full (ncells_full g) g in
  let g := with_nvertices_full (nvertices_full g) g in
  let '(cells', maxc, good) :=
    filter_cells_pass include_cell (_cells g) (-1) ∅ in
  let g := with_max_realized_cell_index maxc (with_cells cells' g) in
  let '(vertices', maxv) := filter_vertices_pass good (_vertices g) (-1) in
  with_max_realized_vertex_index maxv (with_vertices vertices' g).

(** The cells [filter_cells] keeps and the set [good_vertices] its first
    pass ends with, in closed form. *)
Definition kept_cells (P : Z → bool) (g : Grid) : Dict Cell.t :=
  filter (λ kc, P (Cell.index kc.2) = true) (_cells g).

Definition good_vertices (P : Z → bool) (g : Grid) : gset Z :=
  fold_left (λ s c, insert_vertex_indices (Cell.vertices c) s)
    (kept_cells P g).*2 ∅.

(** ** Sequences of operations on a grid *)

Inductive grid_op : Type :=
| OpAddVertex (v : Vertex.t)
| OpAddCell (c : Cell.t)
| OpFilterCells (include_cell : Z → bool).

Definition run_op (o : grid_op) (g : Grid) : Grid :=
  match o with
  | OpAddVertex v => (add_vertex v g).1
  | OpAddCell c => (add_cell c g).1
  | OpFilterCells p => filter_cells p g
  end.

Definition run_ops (ops : list grid_op) (g : Grid) : Grid :=
  fold_left (fun g o => run_op o g) ops g.

(** The grids a caller can reach from a freshly constructed one.  A throwing
    insertion still counts as a step: the caller may catch and go on. *)
Inductive reachable : Grid → Prop :=
| reach_new ty : reachable (new_Grid ty)
| reach_step o g : reachable g → reachable (run_op o g).

(** ** Geometry *)

(** The loop of [area_of_polygon]: [it0] is the vertex reached so far, the
    list holds what [it1] still has to visit.  It hands back the running sum
    and the last vertex, which the wrap-around term needs. *)
Fixpoint area_loop (it0 : Vertex.t) (rest : list Vertex.t) (ret : double)
  : double * Vertex.t :=
  match rest with
  | [] => (ret, it0)
  | it1 :: rest' =>
      area_loop it1 rest'
        (ret + (Vertex.x it0 * Vertex.y it1 - Vertex.x it1 * Vertex.y it0))%float
  end.

(** [area_of_polygon].  A cell without vertices makes the source step an
    iterator past the end; that case has no value here. *)
Definition area_of_polygon (cell : Cell.t) : option double :=
  match Cell.vertices cell with
  | [] => None
  | first :: rest =>
      let '(ret, it0) := area_loop first rest 0%float in
      let it1 := first in
      let ret :=
        (ret + (Vertex.x it0 * Vertex.y it1 - Vertex.x it1 * Vertex.y it0))%float in
      Some (ret * 0.5)%float
  end.

(** The projection collaborator [giss::Proj2]: [proj.transform(x, y, x', y')]
    is a function of the input point. *)
Definition Proj2 : Type := double → double → double * double.

(** The loop of [area_of_proj_polygon].  Besides the running sum and the
    last transformed point it records, in call order, the points handed to
    [proj.transform]. *)
Fixpoint proj_area_loop (proj : Proj2) (x0 y0 : double)
    (rest : list Vertex.t) (ret : double) (calls : list (double * double))
  : double * double * double * list (double * double) :=
  match rest with
  | [] => (ret, x0, y0, calls)
  | it0 :: rest' =>
      let '(x1, y1) := proj (Vertex.x it0) (Vertex.y it0) in
      proj_area_loop proj x1 y1 rest' (ret + (x0 * y1 - x1 * y0))%float
        (calls ++ [(Vertex.x it0, Vertex.y it0)])
  end.

(** [area_of_proj_polygon], with the trace of its calls to the projection. *)
Definition area_of_proj_polygon_traced (cell : Cell.t) (proj : Proj2)
  : option (double * list (double * double)) :=
  match Cell.vertices cell with
  | [] => None
  | it0 :: rest =>
      let '(x00, y00) := proj (Vertex.x it0) (Vertex.y it0) in
      let '(ret, x0, y0, calls) :=
        proj_area_loop proj x00 y00 rest 0%float
          [(Vertex.x it0, Vertex.y it0)] in
      let x1 := x00 in
      let y1 := y00 in
      let ret := (ret + (x0 * y1 - x1 * y0))%float in
      Some ((ret * 0.5)%float, calls)
  end.

Definition area_of_proj_polygon (cell : Cell.t) (proj : Proj2)
  : option double :=
  fst <$> area_of_proj_polygon_traced cell proj.

(** The polygon obtained by transforming every vertex of a cell. *)
Definition transform_vertex (proj : Proj2) (v : Vertex.t) : Vertex.t :=
  let '(x', y') := proj (Vertex.x v) (Vertex.y v) in
  Vertex.mk (Vertex.index v) x' y'.

Definition transform_cell (proj : Proj2) (c : Cell.t) : Cell.t :=
  Cell.mk (Cell.index c) (transform_vertex proj <$> Cell.vertices c)
    (Cell.i c) (Cell.j c) (Cell.k c) (Cell.area c).

(** The loop of [Grid::centroid] in the cell-centered case. *)
Fixpoint centroid_loop (v0 : Vertex.t) (rest : list Vertex.t)
    (Cx Cy : double) : double * double * Vertex.t :=
  match rest with
  | [] => (Cx, Cy, v0)
  | v1 :: rest' =>
      let cross :=
        (Vertex.x v0 * Vertex.y v1 - Vertex.x v1 * Vertex.y v0)%float in
      centroid_loop v1 rest'
        (Cx + (Vertex.x v0 + Vertex.x v1) * cross)%float
        (Cy + (Vertex.y v0 + Vertex.y v1) * cross)%float
  end.

(** [Grid::centroid]: the point written to the out-parameters [x], [y]. *)
Definition centroid (g : Grid) (ix : Z) : option (double * double) :=
  match parameterization g with
  | L0 =>
      cell ← get_cell g ix;
      A ← area_of_polygon cell;
      match Cell.vertices cell with
      | [] => None
      | first :: rest =>
          let '(Cx, Cy, v0) := centroid_loop first rest 0%float 0%float in
          let v1 := first in
          let cross :=
            (Vertex.x v0 * Vertex.y v1 - Vertex.x v1 * Vertex.y v0)%float in
          let Cx := (Cx + (Vertex.x v0 + Vertex.x v1) * cross)%float in
          let Cy := (Cy + (Vertex.y v0 + Vertex.y v1) * cross)%float in
          let fact := (1.0 / (6.0 * A))%float in
          Some ((Cx * fact)%float, (Cy * fact)%float)
      end
  | L1 =>
      vertex ← get_vertex g ix;
      Some (Vertex.x vertex, Vertex.y vertex)
  end.

(** ** Dense area arrays *)

(** [std::vector::at]: a checked write. *)
Definition vector_at_put {A : Type} (v : list A) (ix : Z) (a : A)
  : result (list A) :=
  if (0 <=? ix) && (ix <? Z.of_nat (length v))
  then Ok (<[Z.to_nat ix := a]> v)
  else Err OutOfRange.

Fixpoint native_areas_loop (cells : Dict Cell.t) (area : list double)
  : result (list double) :=
  match cells with
  | [] => Ok area
  | (_, cell) :: rest =>
      area ← vector_at_put area (Cell.index cell) (Cell.area cell);
      native_areas_loop rest area
  end.

(** [Grid::get_native_areas] *)
Definition get_native_areas (g : Grid) : result (list double) :=
  let area := replicate (Z.to_nat (ncells_full g)) nan in
  native_areas_loop (_cells g) area.

(** ** The persistence layer *)

(** Modelled from the spec: the netCDF library ([NcFile], [NcVar], [NcDim],
    [giss::get_att], [giss::read_int_vector], ...) is an external
    collaborator.  A file is a store of named dimensions and named array
    variables; a variable has a shape, a flat row-major array of values of
    its declared type and named attributes.  The free-text "comment"
    attributes that [netcdf_define] attaches are documentation only and are
    left out. *)
Inductive NcAtt : Type :=
| AttInt (z : Z)
| AttString (s : string).

Inductive NcValues : Type :=
| NcInt (data : list Z)
| NcDouble (data : list double).

Record NcVar : Type := mkNcVar {
  var_dims : list nat;
  var_values : NcValues;
  var_atts : gmap string NcAtt
}.

Record NcFile : Type := mkNcFile {
  nc_dims : gmap string nat;
  nc_vars : gmap string NcVar
}.

Inductive NcType : Type := ncInt | ncDouble.

(** [NcFile nc(fname, NcFile::Replace)] *)
Definition NcFile_Replace : NcFile := mkNcFile ∅ ∅.

Definition add_dim (nc : NcFile) (dname : string) (size : nat) : NcFile :=
  mkNcFile (<[dname := size]> (nc_dims nc)) (nc_vars nc).

Definition get_or_add_dim (nc : NcFile) (dname : string) (size : nat)
  : NcFile :=
  match nc_dims nc !! dname with
  | Some _ => nc
  | None => add_dim nc dname size
  end.

Definition fill_values (ty : NcType) (n : nat) : NcValues :=
  match ty with
  | ncInt => NcInt (replicate n 0)
  | ncDouble => NcDouble (replicate n 0%float)
  end.

Definition add_var (nc : NcFile) (vname : string) (ty : NcType)
    (dims : list nat) : NcFile :=
  mkNcFile (nc_dims nc)
    (<[vname := mkNcVar dims (fill_values ty (foldr Nat.mul 1%nat dims)) ∅]>
       (nc_vars nc)).

Definition get_var (nc : NcFile) (vname : string) : result NcVar :=
  match nc_vars nc !! vname with
  | Some var => Ok var
  | None => Err SchemaError
  end.

Definition set_var (nc : NcFile) (vname : string) (var : NcVar) : NcFile :=
  mkNcFile (nc_dims nc) (<[vname := var]> (nc_vars nc)).

Definition add_att (var : NcVar) (aname : string) (a : NcAtt) : NcVar :=
  mkNcVar (var_dims var) (var_values var) (<[aname := a]> (var_atts var)).

Definition get_att (var : NcVar) (aname : string) : result NcAtt :=
  match var_atts var !! aname with
  | Some a => Ok a
  | None => Err SchemaError
  end.

Definition as_string (a : NcAtt) : result string :=
  match a with
  | AttString s => Ok s
  | AttInt _ => Err SchemaError
  end.

Definition as_int (a : NcAtt) : result Z :=
  match a with
  | AttInt z => Ok z
  | AttString _ => Err SchemaError
  end.

(** Overwrites [length vals] consecutive entries starting at [pos]. *)
Definition put_at {A : Type} (data : list A) (pos : nat) (vals : list A)
  : result (list A) :=
  if decide (pos + length vals ≤ length data)%nat
  then Ok (take pos data ++ vals ++ drop (pos + length vals) data)
  else Err OutOfRange.

(** [var->set_cur(pos); var->put(vals, ...)] on an integer variable. *)
Definition put_ints (var : NcVar) (pos : nat) (vals : list Z)
  : result NcVar :=
  match var_values var with
  | NcInt data =>
      data' ← put_at data pos vals;
      Ok (mkNcVar (var_dims var) (NcInt data') (var_atts var))
  | NcDouble _ => Err SchemaError
  end.

(** The same on a variable of doubles. *)
Definition put_doubles (var : NcVar) (pos : nat) (vals : list double)
  : result NcVar :=
  match var_values var with
  | NcDouble data =>
      data' ← put_at data pos vals;
      Ok (mkNcVar (var_dims var) (NcDouble data') (var_atts var))
  | NcInt _ => Err SchemaError
  end.

Definition read_int_vector (nc : NcFile) (vname : string)
  : result (list Z) :=
  var ← get_var nc vname;
  match var_values var with
  | NcInt data => Ok data
  | NcDouble _ => Err SchemaError
  end.

Definition read_double_vector (nc : NcFile) (vname : string)
  : result (list double) :=
  var ← get_var nc vname;
  match var_values var with
  | NcDouble data => Ok data
  | NcInt _ => Err SchemaError
  end.

(** [var->get_dim(0)->size()] *)
Definition get_dim0_size (var : NcVar) : result nat :=
  match var_dims var with
  | n :: _ => Ok n
  | [] => Err SchemaError
  end.

(** [var->get(&buf[0], n, width)] into a buffer of [n * width] entries. *)
Definition get_ints (var : NcVar) (n width : nat) : result (list Z) :=
  match var_values var with
  | NcInt data =>
      if decide (n * width ≤ length data)%nat then Ok (take (n * width) data)
      else Err SchemaError
  | NcDouble _ => Err SchemaError
  end.

Definition get_doubles (var : NcVar) (n width : nat)
  : result (list double) :=
  match var_values var with
  | NcDouble data =>
      if decide (n * width ≤ length data)%nat then Ok (take (n * width) data)
      else Err SchemaError
  | NcInt _ => Err SchemaError
  end.

(** Reading entry [ix] of a [std::vector]; a read outside the vector has no
    defined value and is reported as a malformed file. *)
Definition vector_get {A : Type} (v : list A) (ix : Z) : result A :=
  if ix <? 0 then Err SchemaError
  else match v !! Z.to_nat ix with
       | Some a => Ok a
       | None => Err SchemaError
       end.

(** ** Enumeration tags *)

Definition GridType_str (t : GridType) : string :=
  match t with
  | GENERIC => "GENERIC" | XY => "XY" | LONLAT => "LONLAT"
  | EXCHANGE => "EXCHANGE"
  end.

Definition Coordinates_str (c : Coordinates) : string :=
  match c with CoordXY => "XY" | CoordLONLAT => "LONLAT" end.

Definition Parameterization_str (p : Parameterization) : string :=
  match p with L0 => "L0" | L1 => "L1" end.

Definition parse_GridType (s : string) : result GridType :=
  if String.eqb s "GENERIC" then Ok GENERIC
  else if String.eqb s "XY" then Ok XY
  else if String.eqb s "LONLAT" then Ok LONLAT
  else if String.eqb s "EXCHANGE" then Ok EXCHANGE
  else Err SchemaError.

Definition parse_Coordinates (s : string) : result Coordinates :=
  if String.eqb s "XY" then Ok CoordXY
  else if String.eqb s "LONLAT" then Ok CoordLONLAT
  else Err SchemaError.

Definition parse_Parameterization (s : string) : result Parameterization :=
  if String.eqb s "L0" then Ok L0
  else if String.eqb s "L1" then Ok L1
  else Err SchemaError.

(** [sprintf(buf, "%ld", n)] and [sscanf(s, "%ld", &n)] *)
Definition sprintf_ld (n : Z) : string :=
  NilZero.string_of_int (Z.to_int n).

Definition sscanf_ld (s : string) : option Z :=
  Z.of_int <$> NilZero.int_of_string s.

(** ** The mesh codec *)

(** Modelled from the spec: [Dict::sorted()] belongs to the container
    template outside the sources; at its two call sites the source says
    "Sort by index".  It yields the stored entities in ascending index
    order. *)
Definition vertex_index_le (a b : Vertex.t) : Prop :=
  Vertex.index a ≤ Vertex.index b.

Definition cell_index_le (a b : Cell.t) : Prop :=
  Cell.index a ≤ Cell.index b.

#[global] Instance vertex_index_le_dec : RelDecision vertex_index_le :=
  λ a b, Z.le_dec (Vertex.index a) (Vertex.index b).

#[global] Instance cell_index_le_dec : RelDecision cell_index_le :=
  λ a b, Z.le_dec (Cell.index a) (Cell.index b).

Definition vertices_sorted (d : Dict Vertex.t) : list Vertex.t :=
  merge_sort vertex_index_le (dict_values d).

Definition cells_sorted (d : Dict Cell.t) : list Cell.t :=
  merge_sort cell_index_le (dict_values d).

(** The vertex loop of [Grid::netcdf_write]. *)
Fixpoint write_vertices (vertices : list Vertex.t) (i : nat)
    (vertices_index_var vertices_xy_var : NcVar) : result (NcVar * NcVar) :=
  match vertices with
  | [] => Ok (vertices_index_var, vertices_xy_var)
  | vertex :: rest =>
      vertices_index_var ←
        put_ints vertices_index_var i [Vertex.index vertex];
      vertices_xy_var ←
        put_doubles vertices_xy_var (i * 2) [Vertex.x vertex; Vertex.y vertex];
      write_vertices rest (S i) vertices_index_var vertices_xy_var
  end.

(** The variables the cell loop writes through. *)
Record CellVars : Type := mkCellVars {
  cv_index : NcVar;
  cv_ijk : NcVar;
  cv_area : NcVar;
  cv_vertex_refs : NcVar;
  cv_vertex_refs_start : NcVar
}.

(** The inner loop of the cell loop: one reference per vertex of the cell. *)
Fixpoint write_vertex_refs (vertices : list Vertex.t) (ivref : nat)
    (cells_vertex_refs_var : NcVar) : result (NcVar * nat) :=
  match vertices with
  | [] => Ok (cells_vertex_refs_var, ivref)
  | vertex :: rest =>
      cells_vertex_refs_var ←
        put_ints cells_vertex_refs_var ivref [Vertex.index vertex];
      write_vertex_refs rest (S ivref) cells_vertex_refs_var
  end.

(** The cell loop of [Grid::netcdf_write]; it hands back the variables and
    the final values of [i] and [ivref]. *)
Fixpoint write_cells (cells : list Cell.t) (i ivref : nat) (cv : CellVars)
  : result (CellVars * nat * nat) :=
  match cells with
  | [] => Ok (cv, i, ivref)
  | cell :: rest =>
      index_var ← put_ints (cv_index cv) i [Cell.index cell];
      ijk_var ←
        put_ints (cv_ijk cv) (i * 3)
          [Cell.i cell; Cell.j cell; Cell.k cell];
      area_var ← put_doubles (cv_area cv) i [Cell.area cell];
      start_var ←
        put_ints (cv_vertex_refs_start cv) i [Z.of_nat ivref];
      '(refs_var, ivref') ←
        write_vertex_refs (Cell.vertices cell) ivref (cv_vertex_refs cv);
      write_cells rest (S i) ivref'
        (mkCellVars index_var ijk_var area_var refs_var start_var)
  end.

(** [Grid::netcdf_write] *)
Definition netcdf_write (g : Grid) (nc : NcFile) (vname : string)
  : result NcFile :=
  vertices_index_var ← get_var nc (vname +:+ ".vertices.index");
  vertices_xy_var ← get_var nc (vname +:+ ".vertices.xy");
  let vertices := vertices_sorted (_vertices g) in
  '(vertices_index_var, vertices_xy_var) ←
    write_vertices vertices 0 vertices_index_var vertices_xy_var;
  cells_index_var ← get_var nc (vname +:+ ".cells.index");
  cells_ijk_var ← get_var nc (vname +:+ ".cells.ijk");
  cells_area_var ← get_var nc (vname +:+ ".cells.area");
  cells_vertex_refs_var ← get_var nc (vname +:+ ".cells.vertex_refs");
  cells_vertex_refs_start_var ←
    get_var nc (vname +:+ ".cells.vertex_refs_start");
  let cells := cells_sorted (_cells g) in
  '(cv, i, ivref) ←
    write_cells cells 0 0
      (mkCellVars cells_index_var cells_ijk_var cells_area_var
         cells_vertex_refs_var cells_vertex_refs_start_var);
  start_var ← put_ints (cv_vertex_refs_start cv) i [Z.of_nat ivref];
  let nc := set_var nc (vname +:+ ".vertices.index") vertices_index_var in
  let nc := set_var nc (vname +:+ ".vertices.xy") vertices_xy_var in
  let nc := set_var nc (vname +:+ ".cells.index") (cv_index cv) in
  let nc := set_var nc (vname +:+ ".cells.ijk") (cv_ijk cv) in
  let nc := set_var nc (vname +:+ ".cells.area") (cv_area cv) in
  let nc :=
    set_var nc (vname +:+ ".cells.vertex_refs") (cv_vertex_refs cv) in
  let nc := set_var nc (vname +:+ ".cells.vertex_refs_start") start_var in
  Ok nc.

(** [info_var->add_att(aname, a)] for a variable held by the file. *)
Definition add_var_att (nc : NcFile) (vname aname : string) (a : NcAtt)
  : NcFile :=
  mkNcFile (nc_dims nc)
    (alter (λ var, add_att var aname a) vname (nc_vars nc)).

(** The count of vertex references over all cells. *)
Definition count_vertex_refs (cells : Dict Cell.t) : nat :=
  fold_left (λ nvref cell, (nvref + Cell.size cell)%nat) (dict_values cells)
    0%nat.

(** [Grid::netcdf_define]: declares the schema and returns the deferred
    writer. *)
Definition netcdf_define (g : Grid) (nc : NcFile) (vname : string)
  : NcFile * (NcFile → result NcFile) :=
  let nc := get_or_add_dim nc "one" 1 in
  let info := vname +:+ ".info" in
  let nc := add_var nc info ncInt [1%nat] in
  let nc := add_var_att nc info "version" (AttInt 1) in
  let nc := add_var_att nc info "name" (AttString (name g)) in
  let nc := add_var_att nc info "type" (AttString (GridType_str (type g))) in
  let nc :=
    add_var_att nc info "coordinates"
      (AttString (Coordinates_str (coordinates g))) in
  let nc :=
    add_var_att nc info "parameterization"
      (AttString (Parameterization_str (parameterization g))) in
  let nc :=
    match coordinates g with
    | CoordXY => add_var_att nc info "projection" (AttString (sproj g))
    | CoordLONLAT => nc
    end in
  let nc :=
    add_var_att nc info "cells.num_full"
      (AttString (sprintf_ld (ncells_full g))) in
  let nc :=
    add_var_att nc info "vertices.num_full" (AttInt (nvertices_full g)) in
  let nvref := count_vertex_refs (_cells g) in
  let nvertices := Z.to_nat (nvertices_realized g) in
  let ncells := Z.to_nat (ncells_realized g) in
  let nc := add_dim nc (vname +:+ ".vertices.num_realized") nvertices in
  let nc := add_dim nc (vname +:+ ".cells.num_realized") ncells in
  let nc :=
    add_dim nc (vname +:+ ".cells.num_realized_plus1")
      (Z.to_nat (ncells_realized g + 1)) in
  let nc := add_dim nc (vname +:+ ".cells.num_vertex_refs") nvref in
  let nc := get_or_add_dim nc "two" 2 in
  let nc := get_or_add_dim nc "three" 3 in
  let nc := add_var nc (vname +:+ ".vertices.index") ncInt [nvertices] in
  let nc :=
    add_var nc (vname +:+ ".vertices.xy") ncDouble [nvertices; 2%nat] in
  let nc := add_var nc (vname +:+ ".cells.index") ncInt [ncells] in
  let nc := add_var nc (vname +:+ ".cells.ijk") ncInt [ncells; 3%nat] in
  let nc := add_var nc (vname +:+ ".cells.area") ncDouble [ncells] in
  let nc := add_var nc (vname +:+ ".cells.vertex_refs") ncInt [nvref] in
  let nc :=
    add_var nc (vname +:+ ".cells.vertex_refs_start") ncInt
      [Z.to_nat (ncells_realized g + 1)] in
  (nc, λ nc, netcdf_write g nc vname).

(** [Grid::to_netcdf], up to the file name: define, then run the writer. *)
Definition to_netcdf (g : Grid) (vname : string) : result NcFile :=
  let '(nc, gridd) := netcdf_define g NcFile_Replace vname in
  gridd nc.

(** A throwing insertion aborts the read. *)
Definition or_throw {A : Type} (r : Grid * result A) : result Grid :=
  match r.2 with
  | Ok _ => Ok r.1
  | Err e => Err e
  end.

(** The vertex loop of [Grid::read_from_netcdf]. *)
Fixpoint read_vertices (vertices_index : list Z) (i : nat)
    (vertices_xy : list double) (g : Grid) : result Grid :=
  match vertices_index with
  | [] => Ok g
  | index :: rest =>
      x ← vector_get vertices_xy (Z.of_nat i * 2);
      y ← vector_get vertices_xy (Z.of_nat i * 2 + 1);
      g ← or_throw (add_vertex (Vertex.mk index x y) g);
      read_vertices rest (S i) vertices_xy g
  end.

(** Modelled from the spec: what [get_vertex] does with an index that is
    not in the vertex table is decided in [glint2/Grid.hpp]; by the spec the
    decode fails with [DanglingReference]. *)
Definition get_vertex_ref (g : Grid) (ix : Z) : result Vertex.t :=
  match get_vertex g ix with
  | Some v => Ok v
  | None => Err DanglingReference
  end.

(** The loop [for (j = vrefs_start[i]; j < vrefs_start[i+1]; ++j)], with
    [n] the number of iterations left. *)
Fixpoint read_vertex_refs (g : Grid) (vrefs : list Z) (j : Z) (n : nat)
    (cell : Cell.t) : result Cell.t :=
  match n with
  | O => Ok cell
  | S n' =>
      ref ← vector_get vrefs j;
      vertex ← get_vertex_ref g ref;
      read_vertex_refs g vrefs (j + 1) n' (Cell.add_vertex vertex cell)
  end.

(** The cell loop of [Grid::read_from_netcdf]. *)
Fixpoint read_cells (cells_index : list Z) (i : nat) (cells_ijk : list Z)
    (cells_area : list double) (vrefs vrefs_start : list Z) (g : Grid)
  : result Grid :=
  match cells_index with
  | [] => Ok g
  | index :: rest =>
      ci ← vector_get cells_ijk (Z.of_nat i * 3 + 0);
      cj ← vector_get cells_ijk (Z.of_nat i * 3 + 1);
      ck ← vector_get cells_ijk (Z.of_nat i * 3 + 2);
      carea ← vector_get cells_area (Z.of_nat i);
      start ← vector_get vrefs_start (Z.of_nat i);
      stop ← vector_get vrefs_start (Z.of_nat i + 1);
      cell ←
        read_vertex_refs g vrefs start (Z.to_nat (stop - start))
          (Cell.mk index [] ci cj ck carea);
      g ← or_throw (add_cell cell g);
      read_cells rest (S i) cells_ijk cells_area vrefs vrefs_start g
  end.

(** [giss::get_att(var, aname)->as_string(0)] and [->as_int(0)] *)
Definition att_as_string (var : NcVar) (aname : string) : result string :=
  a ← get_att var aname; as_string a.

Definition att_as_int (var : NcVar) (aname : string) : result Z :=
  a ← get_att var aname; as_int a.

(** [Grid::read_from_netcdf] *)
Definition read_from_netcdf (nc : NcFile) (vname : string) (g : Grid)
  : result Grid :=
  let g := clear g in
  info_var ← get_var nc (vname +:+ ".info");
  name' ← att_as_string info_var "name";
  stype ← att_as_string info_var "type";
  type' ← parse_GridType stype;
  scoordinates ← att_as_string info_var "coordinates";
  coordinates' ← parse_Coordinates scoordinates;
  sparameterization ← att_as_string info_var "parameterization";
  parameterization' ← parse_Parameterization sparameterization;
  sproj' ←
    match coordinates' with
    | CoordXY => att_as_string info_var "projection"
    | CoordLONLAT => Ok ""
    end;
  sncells_full ← att_as_string info_var "cells.num_full";
  let ncells_full' := default (_ncells_full g) (sscanf_ld sncells_full) in
  nvertices_full' ← att_as_int info_var "vertices.num_full";
  let g :=
    mkGrid type' coordinates' parameterization' name' sproj'
      (_vertices g) (_cells g) ncells_full' nvertices_full'
      (_max_realized_cell_index g) (_max_realized_vertex_index g) in
  vertices_index ← read_int_vector nc (vname +:+ ".vertices.index");
  vertices_xy_var ← get_var nc (vname +:+ ".vertices.xy");
  npoints ← get_dim0_size vertices_xy_var;
  vertices_xy ← get_doubles vertices_xy_var npoints 2;
  g ← read_vertices vertices_index 0 vertices_xy g;
  cells_index ← read_int_vector nc (vname +:+ ".cells.index");
  cells_ijk_var ← get_var nc (vname +:+ ".cells.ijk");
  ncells ← get_dim0_size cells_ijk_var;
  cells_ijk ← get_ints cells_ijk_var ncells 3;
  cells_area ← read_double_vector nc (vname +:+ ".cells.area");
  vrefs ← read_int_vector nc (vname +:+ ".cells.vertex_refs");
  vrefs_start ← read_int_vector nc (vname +:+ ".cells.vertex_refs_start");
  read_cells cells_index 0 cells_ijk cells_area vrefs vrefs_start g.

(** ** The sparse operator builder *)

(** Modelled from the spec: [spsparse::SparseSet] (the native-to-dense
    index table of one axis) is declared outside the sources.  By the spec
    it assigns dense positions lazily, in first-seen order, and carries the
    declared native extent of its axis. *)
Record SparseSetT : Type := mkSparseSet {
  _sparse_extent : Z;
  _s2d : gmap Z Z;
  _d2s : list Z
}.

Definition SparseSet_new : SparseSetT := mkSparseSet (-1) ∅ [].

Definition sparse_extent (s : SparseSetT) : Z := _sparse_extent s.

Definition dense_extent (s : SparseSetT) : Z := Z.of_nat (length (_d2s s)).

Definition set_sparse_extent (n : Z) (s : SparseSetT) : SparseSetT :=
  mkSparseSet n (_s2d s) (_d2s s).

Definition to_dense (s : SparseSetT) (sparse_ix : Z) : option Z :=
  _s2d s !! sparse_ix.

Definition add_dense (sparse_ix : Z) (s : SparseSetT) : SparseSetT * Z :=
  match _s2d s !! sparse_ix with
  | Some dense_ix => (s, dense_ix)
  | None =>
      let dense_ix := dense_extent s in
      (mkSparseSet (_sparse_extent s) (<[sparse_ix := dense_ix]> (_s2d s))
         (_d2s s ++ [sparse_ix]),
       dense_ix)
  end.

(** Modelled from the spec: the linear-algebra backend's sparse matrix,
    built from a list of triplets; triplets at the same position add up. *)
Record EigenSparseMatrixT : Type := mkEigen {
  rows : Z;
  cols : Z;
  coeffs : gmap (Z * Z) double
}.

Definition setFromTriplets (triplets : list (Z * Z * double))
  : gmap (Z * Z) double :=
  fold_left
    (λ m '(i, j, v),
       match m !! (i, j) with
       | Some w => <[(i, j) := (w + v)%float]> m
       | None => <[(i, j) := v]> m
       end)
    triplets ∅.

Definition coeff (M : EigenSparseMatrixT) (i j : Z) : double :=
  default 0%float (coeffs M !! (i, j)).

(** Modelled from the spec: [MakeDenseEigenT], declared in
    [icebin/eigen_types.hpp] outside the sources.  With the [ADD_DENSE]
    transform its accumulator turns the native indices of every entry into
    dense ones, adding them to the axis tables on first encounter, and keeps
    the entry as a triplet. *)
Record MakeDenseEigenT : Type := mkMakeDense {
  mde_dims : SparseSetT * SparseSetT;
  mde_M : list (Z * Z * double)
}.

Definition MakeDenseEigenT_new (dims : SparseSetT * SparseSetT)
  : MakeDenseEigenT :=
  mkMakeDense dims [].

Definition MakeDenseEigenT_add (index : Z * Z) (value : double)
    (m : MakeDenseEigenT) : MakeDenseEigenT :=
  let '(d0, i) := add_dense index.1 (mde_dims m).1 in
  let '(d1, j) := add_dense index.2 (mde_dims m).2 in
  mkMakeDense (d0, d1) (mde_M m ++ [(i, j, value)]).

Definition MakeDenseEigenT_to_eigen (dims : SparseSetT * SparseSetT)
    (M : list (Z * Z * double)) : EigenSparseMatrixT :=
  mkEigen (dense_extent dims.1) (dense_extent dims.2) (setFromTriplets M).

(** Modelled from the spec: [ibmisc::linear::Weighted_Compressed], the
    weighted relation handed to the builder: its declared native extents and
    its stream of [(row, col, weight)] entries. *)
Record Weighted_Compressed : Type := mkWeighted {
  shape : Z * Z;
  generator : list (Z * Z * double)
}.

(** [to_eigen_M].  The axis tables are passed by pointer; the tables it
    leaves behind are returned next to the matrix. *)
Definition to_eigen_M (BvA : Weighted_Compressed)
    (dims : SparseSetT * SparseSetT)
  : EigenSparseMatrixT * (SparseSetT * SparseSetT) :=
  let BvA_m := MakeDenseEigenT_new dims in
  let BvA_m :=
    fold_left (λ m '(row, col, value), MakeDenseEigenT_add (row, col) value m)
      (generator BvA) BvA_m in
  let BvA_shape := shape BvA in
  let dims :=
    (set_sparse_extent BvA_shape.1 (mde_dims BvA_m).1,
     set_sparse_extent BvA_shape.2 (mde_dims BvA_m).2) in
  (MakeDenseEigenT_to_eigen dims (mde_M BvA_m), dims).

(** ** Invariants *)

(** Every realized entity is filed under its own index, and no realized
    index exceeds the tracker of its collection. *)
Definition max_realized_invariant (g : Grid) : Prop :=
  (∀ key cell, (key, cell) ∈ _cells g →
     Cell.index cell = key ∧ key ≤ _max_realized_cell_index g) ∧
  (∀ key vertex, (key, vertex) ∈ _vertices g →
     Vertex.index vertex = key ∧ key ≤ _max_realized_vertex_index g).

(** The index fields of the realized entities, in iteration order. *)
Definition vertex_indices (g : Grid) : list Z :=
  Vertex.index <$> (_vertices g).*2.

Definition cell_indices (g : Grid) : list Z :=
  Cell.index <$> (_cells g).*2.

(** Every vertex a cell points to is a vertex of the grid (the spec's data
    model: a cell refers to vertices owned by the same grid). *)
Definition cell_vertices_owned (g : Grid) : Prop :=
  Forall
    (λ kc : Z * Cell.t,
       Forall (λ v, Vertex.index v ∈ vertex_indices g) (Cell.vertices kc.2))
    (_cells g).

#[global] Instance cell_vertices_owned_dec g : Decision (cell_vertices_owned g).
Proof. unfold cell_vertices_owned. apply _. Defined.

(** The vertex indices referenced by the cells of a grid. *)
Definition referenced (g : Grid) (z : Z) : Prop :=
  ∃ key cell v, (key, cell) ∈ _cells g ∧ v ∈ Cell.vertices cell ∧
                Vertex.index v = z.

(** The representation invariant of a grid: within each collection the
    indices are pairwise distinct, every entity is filed under its own
    index, no entity carries the "unassigned" sentinel, and the vertices of
    every cell belong to the grid. *)
Definition grid_wf (g : Grid) : Prop :=
  NoDup (dict_keys (_vertices g)) ∧
  NoDup (dict_keys (_cells g)) ∧
  Forall (λ kv : Z * Vertex.t, Vertex.index kv.2 = kv.1 ∧ kv.1 ≠ -1)
    (_vertices g) ∧
  Forall (λ kc : Z * Cell.t, Cell.index kc.2 = kc.1 ∧ kc.1 ≠ -1)
    (_cells g) ∧
  cell_vertices_owned g.

#[global] Instance grid_wf_dec g : Decision (grid_wf g).
Proof. unfold grid_wf. apply _. Defined.

(** ** Sequences of insertions *)

(** A sequence of [add_cell] calls, each paired with what it returned; a
    throwing call does not stop the sequence. *)
Fixpoint add_cells (cells : list Cell.t) (g : Grid)
  : Grid * list (Cell.t * result Cell.t) :=
  match cells with
  | [] => (g, [])
  | cell :: rest =>
      let '(g', r) := add_cell cell g in
      let '(g'', trace) := add_cells rest g' in
      (g'', (cell, r) :: trace)
  end.

Fixpoint add_vertices (vertices : list Vertex.t) (g : Grid)
  : Grid * list (Vertex.t * result Vertex.t) :=
  match vertices with
  | [] => (g, [])
  | vertex :: rest =>
      let '(g', r) := add_vertex vertex g in
      let '(g'', trace) := add_vertices rest g' in
      (g'', (vertex, r) :: trace)
  end.

(** The index a call was given by auto-assignment, when it asked for one
    and the insertion went through. *)
Definition auto_assigned_cell_index (e : Cell.t * result Cell.t)
  : option Z :=
  if Cell.index e.1 =? -1 then
    match e.2 with
    | Ok cell => Some (Cell.index cell)
    | Err _ => None
    end
  else None.

Definition auto_assigned_vertex_index (e : Vertex.t * result Vertex.t)
  : option Z :=
  if Vertex.index e.1 =? -1 then
    match e.2 with
    | Ok vertex => Some (Vertex.index vertex)
    | Err _ => None
    end
  else None.

Definition auto_assigned_cell_indices (trace : list (Cell.t * result Cell.t))
  : list Z :=
  omap auto_assigned_cell_index trace.

Definition auto_assigned_vertex_indices
    (trace : list (Vertex.t * result Vertex.t)) : list Z :=
  omap auto_assigned_vertex_index trace.

(** ** Vocabulary of the round trip *)

(** The coordinates of a cell's vertices, in order. *)
Definition cell_coordinates (cell : Cell.t) : list (double * double) :=
  (λ v, (Vertex.x v, Vertex.y v)) <$> Cell.vertices cell.

(** What the codec stores of a cell: its index, its address tag, its area
    and the indices of its vertices, in order. *)
Definition cell_record (c : Cell.t) : Z * Z * Z * Z * double * list Z :=
  (Cell.index c, Cell.i c, Cell.j c, Cell.k c, Cell.area c,
   Vertex.index <$> Cell.vertices c).

(** The cell table as the codec sees it: each cell's key with its record. *)
Definition cell_records (g : Grid)
  : list (Z * (Z * Z * Z * Z * double * list Z)) :=
  (λ kc : Z * Cell.t, (kc.1, cell_record kc.2)) <$> _cells g.

(** The way an entity is filed in its collection. *)
Definition vertex_entry (v : Vertex.t) : Z * Vertex.t := (Vertex.index v, v).
Definition cell_entry (c : Cell.t) : Z * Cell.t := (Cell.index c, c).

(** The array obtained by overwriting [vals] into [data] from [pos] on. *)
Definition overwrite {A : Type} (pos : nat) (vals data : list A) : list A :=
  take pos data ++ vals ++ drop (pos + length vals) data.

(** The contents of the codec's arrays for given lists of entities. *)
Definition flat_xy (vs : list Vertex.t) : list double :=
  v ← vs; [Vertex.x v; Vertex.y v].

Definition flat_ijk (cs : list Cell.t) : list Z :=
  c ← cs; [Cell.i c; Cell.j c; Cell.k c].

Definition flat_vertex_refs (cs : list Cell.t) : list Z :=
  c ← cs; Vertex.index <$> Cell.vertices c.

Fixpoint vertex_refs_starts (ivref : nat) (cs : list Cell.t) : list Z :=
  match cs with
  | [] => []
  | c :: rest =>
      Z.of_nat ivref :: vertex_refs_starts (ivref + Cell.size c) rest
  end.

(** A variable as [add_var] declares it, and a variable holding given
    values. *)
Definition declared (ty : NcType) (dims : list nat) : NcVar :=
  mkNcVar dims (fill_values ty (foldr Nat.mul 1%nat dims)) ∅.

Definition int_var (dims : list nat) (data : list Z) : NcVar :=
  mkNcVar dims (NcInt data) ∅.

Definition double_var (dims : list nat) (data : list double) : NcVar :=
  mkNcVar dims (NcDouble data) ∅.

(** The attributes of an info variable describe a grid. *)
Definition info_matches (info_var : NcVar) (g : Grid) : Prop :=
  att_as_string info_var "name" = Ok (name g) ∧
  att_as_string info_var "type" = Ok (GridType_str (type g)) ∧
  att_as_string info_var "coordinates" =
    Ok (Coordinates_str (coordinates g)) ∧
  att_as_string info_var "parameterization" =
    Ok (Parameterization_str (parameterization g)) ∧
  (coordinates g = CoordXY →
   att_as_string info_var "projection" = Ok (sproj g)) ∧
  att_as_string info_var "cells.num_full" =
    Ok (sprintf_ld (ncells_full g)) ∧
  att_as_int info_var "vertices.num_full" = Ok (nvertices_full g).

(** ** Sample data *)

(** The unit square and its right-hand neighbour, as in the spec's
    end-to-end examples.  Vertices are handed to [add_vertex] with the
    sentinel index; cells point to the vertices as the grid numbered them. *)
Definition v00 : Vertex.t := Vertex.mk (-1) 0%float 0%float.
Definition v10 : Vertex.t := Vertex.mk (-1) 1%float 0%float.
Definition v11 : Vertex.t := Vertex.mk (-1) 1%float 1%float.
Definition v01 : Vertex.t := Vertex.mk (-1) 0%float 1%float.
Definition v20 : Vertex.t := Vertex.mk (-1) 2%float 0%float.
Definition v21 : Vertex.t := Vertex.mk (-1) 2%float 1%float.

Definition numbered (ix : Z) (v : Vertex.t) : Vertex.t :=
  Vertex.with_index ix v.

Definition square_cell : Cell.t :=
  Cell.mk (-1) [numbered 0 v00; numbered 1 v10; numbered 2 v11; numbered 3 v01]
    0 0 0 1%float.

Definition right_cell : Cell.t :=
  Cell.mk (-1) [numbered 1 v10; numbered 4 v20; numbered 5 v21; numbered 2 v11]
    1 0 0 1%float.

Definition square_grid : Grid :=
  run_ops
    [OpAddVertex v00; OpAddVertex v10; OpAddVertex v11; OpAddVertex v01;
     OpAddCell square_cell]
    (new_Grid GENERIC).

Definition strip_grid : Grid :=
  run_ops
    [OpAddVertex v00; OpAddVertex v10; OpAddVertex v11; OpAddVertex v01;
     OpAddVertex v20; OpAddVertex v21;
     OpAddCell square_cell; OpAddCell right_cell]
    (new_Grid GENERIC).

(** A grid whose recorded domain size was frozen before a cell with a
    larger index was added. *)
Definition late_cell_grid : Grid :=
  run_ops
    [OpAddCell square_cell; OpFilterCells (λ _, true);
     OpAddCell (Cell.with_index 3 right_cell)]
    (new_Grid GENERIC).

(** The spec's example input for the sparse operator builder. *)
Definition example_BvA : Weighted_Compressed :=
  mkWeighted (3, 4) [(0, 0, 2.0%float); (0, 0, 3.0%float); (1, 2, 1.0%float)].

(** ** Vocabulary of the further properties *)

(** The entity part of the representation invariant. *)
Definition entities_wf (g : Grid) : Prop :=
  NoDup (dict_keys (_vertices g)) ∧
  NoDup (dict_keys (_cells g)) ∧
  Forall (λ kv : Z * Vertex.t, Vertex.index kv.2 = kv.1 ∧ kv.1 ≠ -1)
    (_vertices g) ∧
  Forall (λ kc : Z * Cell.t, Cell.index kc.2 = kc.1 ∧ kc.1 ≠ -1)
    (_cells g).

(** Two grids carry the same descriptive fields. *)
Definition same_header (g g' : Grid) : Prop :=
  type g' = type g ∧ coordinates g' = coordinates g ∧
  parameterization g' = parameterization g ∧ name g' = name g ∧
  sproj g' = sproj g ∧ _ncells_full g' = _ncells_full g ∧
  _nvertices_full g' = _nvertices_full g.

(** The keys under which a run of insertions files entities whose stored
    indices are [indices], into a collection that holds [size] entries: a
    stored sentinel is replaced by the size the collection has by then. *)
Fixpoint decoded_keys (size : nat) (indices : list Z) : list Z :=
  match indices with
  | [] => []
  | z :: rest =>
      (if z =? -1 then Z.of_nat size else z) :: decoded_keys (S size) rest
  end.

(** * Properties *)

(** ** The keyed collection *)

Section dict.
Context {V : Type}.
Implicit Types (d : Dict V) (key : Z) (val : V).

Lemma dict_lookup_Some d key val :
  dict_lookup key d = Some val → (key, val) ∈ d.
Proof.
  induction d as [|[k v] d IH]; simpl; [done|].
  destruct (Z.eqb_spec k key) as [->|Hne].
  - intros [= ->]. left.
  - intros H. right. auto.
Qed.

Lemma dict_lookup_None d key :
  dict_lookup key d = None ↔ key ∉ dict_keys d.
Proof.
  unfold dict_keys. induction d as [|[k v] d IH]; simpl.
  - split; [intros _; apply not_elem_of_nil|done].
  - rewrite not_elem_of_cons. destruct (Z.eqb_spec k key) as [->|Hne].
    + split; [done|]. intros [? _]. done.
    + rewrite IH. split; [intros ?; split; [intros ->|]; done|tauto].
Qed.

Lemma dict_lookup_is_Some d key :
  is_Some (dict_lookup key d) ↔ key ∈ dict_keys d.
Proof.
  rewrite <- not_eq_None_Some, dict_lookup_None.
  destruct (decide (key ∈ dict_keys d)); tauto.
Qed.

Lemma dict_lookup_NoDup d key val :
  NoDup (dict_keys d) → (key, val) ∈ d → dict_lookup key d = Some val.
Proof.
  unfold dict_keys. induction d as [|[k v] d IH]; simpl.
  - intros _ H. by apply elem_of_nil in H.
  - rewrite NoDup_cons. intros [Hk Hnd] Hin.
    apply elem_of_cons in Hin as [[= <- <-]|Hin].
    + by rewrite Z.eqb_refl.
    + destruct (Z.eqb_spec k key) as [->|Hne]; [|auto].
      exfalso. apply Hk. apply list_elem_of_fmap. by exists (key, val).
Qed.

Lemma dict_insert_present d key val :
  is_Some (dict_lookup key d) → dict_insert key val d = (d, false).
Proof. intros [v Hv]. unfold dict_insert. by rewrite Hv. Qed.

Lemma dict_insert_absent d key val :
  dict_lookup key d = None → dict_insert key val d = (d ++ [(key, val)], true).
Proof. intros Hv. unfold dict_insert. by rewrite Hv. Qed.

Lemma dict_lookup_app d1 d2 key :
  dict_lookup key (d1 ++ d2) =
  match dict_lookup key d1 with
  | Some v => Some v
  | None => dict_lookup key d2
  end.
Proof.
  induction d1 as [|[k v] d1 IH]; simpl; [done|].
  by destruct (k =? key).
Qed.

End dict.

(** ** Insertion *)

Lemma with_max_realized_cell_index_id g :
  with_max_realized_cell_index (_max_realized_cell_index g) g = g.
Proof. by destruct g. Qed.

Lemma with_max_realized_vertex_index_id g :
  with_max_realized_vertex_index (_max_realized_vertex_index g) g = g.
Proof. by destruct g. Qed.

(** The two ways [add_cell] can go, in terms of the cell that is filed. *)
Lemma add_cell_cases cell g :
  let cell' := assigned_cell cell g in
  let g1 :=
    with_max_realized_cell_index
      (Z.max (_max_realized_cell_index g) (Cell.index cell')) g in
  (get_cell g (Cell.index cell') = None ∧
   add_cell cell g =
     (with_cells (_cells g ++ [(Cell.index cell', cell')]) g1, Ok cell')) ∨
  (is_Some (get_cell g (Cell.index cell')) ∧
   add_cell cell g = (g1, Err DuplicateIndex)).
Proof.
  intros cell' g1. unfold add_cell, get_cell. fold (assigned_cell cell g).
  fold cell'. fold g1. unfold dict_insert. simpl.
  destruct (dict_lookup (Cell.index cell') (_cells g)) eqn:E.
  - right. eauto.
  - left. done.
Qed.

Lemma add_vertex_cases vertex g :
  let vertex' := assigned_vertex vertex g in
  let g1 :=
    with_max_realized_vertex_index
      (Z.max (_max_realized_vertex_index g) (Vertex.index vertex')) g in
  (get_vertex g (Vertex.index vertex') = None ∧
   add_vertex vertex g =
     (with_vertices (_vertices g ++ [(Vertex.index vertex', vertex')]) g1,
      Ok vertex')) ∨
  (is_Some (get_vertex g (Vertex.index vertex')) ∧
   add_vertex vertex g = (g1, Err DuplicateIndex)).
Proof.
  intros vertex' g1. unfold add_vertex, get_vertex.
  fold (assigned_vertex vertex g). fold vertex'. fold g1.
  unfold dict_insert. simpl.
  destruct (dict_lookup (Vertex.index vertex') (_vertices g)) eqn:E.
  - right. eauto.
  - left. done.
Qed.

Lemma assigned_cell_explicit cell g :
  Cell.index cell ≠ -1 → assigned_cell cell g = cell.
Proof.
  intros H. unfold assigned_cell.
  by destruct (Z.eqb_spec (Cell.index cell) (-1)).
Qed.

Lemma assigned_vertex_explicit vertex g :
  Vertex.index vertex ≠ -1 → assigned_vertex vertex g = vertex.
Proof.
  intros H. unfold assigned_vertex.
  by destruct (Z.eqb_spec (Vertex.index vertex) (-1)).
Qed.

Lemma assigned_cell_auto cell g :
  Cell.index cell = -1 →
  Cell.index (assigned_cell cell g) = ncells_realized g.
Proof. intros H. unfold assigned_cell. by rewrite H. Qed.

Lemma assigned_vertex_auto vertex g :
  Vertex.index vertex = -1 →
  Vertex.index (assigned_vertex vertex g) = nvertices_realized g.
Proof. intros H. unfold assigned_vertex. by rewrite H. Qed.

Lemma add_cell_invariant cell g :
  max_realized_invariant g → max_realized_invariant (add_cell cell g).1.
Proof.
  intros [Hc Hv].
  destruct (add_cell_cases cell g) as [[_ ->]|[_ ->]]; simpl; split; simpl;
    try done.
  - intros key c [Hin|Hin%list_elem_of_singleton]%elem_of_app.
    + destruct (Hc _ _ Hin). split; [done|lia].
    + injection Hin as -> ->. split; [done|lia].
  - intros key c Hin. destruct (Hc _ _ Hin). split; [done|lia].
Qed.

Lemma add_vertex_invariant vertex g :
  max_realized_invariant g → max_realized_invariant (add_vertex vertex g).1.
Proof.
  intros [Hc Hv].
  destruct (add_vertex_cases vertex g) as [[_ ->]|[_ ->]]; simpl; split;
    simpl; try done.
  - intros key v [Hin|Hin%list_elem_of_singleton]%elem_of_app.
    + destruct (Hv _ _ Hin). split; [done|lia].
    + injection Hin as -> ->. split; [done|lia].
  - intros key v Hin. destruct (Hv _ _ Hin). split; [done|lia].
Qed.

(** ** The two passes of the filter *)

Lemma fold_left_max_le (l : list Z) (m : Z) : m ≤ fold_left Z.max l m.
Proof.
  revert m. induction l as [|a l IH]; intros m; simpl; [lia|].
  specialize (IH (Z.max m a)). lia.
Qed.

Lemma fold_left_max_ge (l : list Z) (m a : Z) :
  a ∈ l → a ≤ fold_left Z.max l m.
Proof.
  revert m. induction l as [|b l IH]; intros m Hin; simpl.
  - by apply elem_of_nil in Hin.
  - apply elem_of_cons in Hin as [->|Hin]; [|by apply IH].
    pose proof (fold_left_max_le l (Z.max m b)). lia.
Qed.

Lemma elem_of_insert_vertex_indices (z : Z) vs (good : gset Z) :
  z ∈ insert_vertex_indices vs good ↔
  z ∈ good ∨ ∃ v, v ∈ vs ∧ Vertex.index v = z.
Proof.
  unfold insert_vertex_indices. revert good.
  induction vs as [|v vs IH]; intros good; simpl.
  - split; [auto|]. intros [?|(v & Hv & _)]; [done|].
    by apply elem_of_nil in Hv.
  - rewrite IH, elem_of_union, elem_of_singleton. split.
    + intros [[->|?]|(w & Hw & <-)]; [right|left|right]; try done.
      * exists v. split; [left|done].
      * exists w. split; [by right|done].
    + intros [?|(w & [->|Hw]%elem_of_cons & <-)]; [tauto|tauto|].
      right. by exists w.
Qed.

(** What the cell pass computes: the kept cells are the cells whose index
    the predicate accepts, in their original order; the tracker is the
    running maximum over them; the good set collects their vertex indices. *)
Lemma filter_cells_pass_spec P cells maxc good :
  filter_cells_pass P cells maxc good =
  (let kept := filter (λ kc, P (Cell.index kc.2) = true) cells in
   (kept,
    fold_left Z.max (Cell.index <$> kept.*2) maxc,
    fold_left (λ s c, insert_vertex_indices (Cell.vertices c) s) kept.*2 good)).
Proof.
  revert maxc good. induction cells as [|[key cell] cells IH];
    intros maxc good; [done|].
  rewrite filter_cons. cbn [filter_cells_pass snd].
  destruct (P (Cell.index cell)) eqn:E.
  - rewrite decide_True by done. rewrite IH. done.
  - rewrite decide_False by congruence. apply IH.
Qed.

Lemma filter_vertices_pass_spec good vertices maxv :
  filter_vertices_pass good vertices maxv =
  (let kept := filter (λ kv, Vertex.index kv.2 ∈ good) vertices in
   (kept, fold_left Z.max (Vertex.index <$> kept.*2) maxv)).
Proof.
  revert maxv. induction vertices as [|[key vertex] vertices IH];
    intros maxv; [done|].
  rewrite filter_cons. cbn [filter_vertices_pass snd].
  destruct (decide (Vertex.index vertex ∈ good)).
  - rewrite IH. done.
  - apply IH.
Qed.

Lemma elem_of_good_vertices (z : Z) (cells : list Cell.t) (good : gset Z) :
  z ∈ fold_left (λ s c, insert_vertex_indices (Cell.vertices c) s) cells good
  ↔ z ∈ good ∨
    ∃ c v, c ∈ cells ∧ v ∈ Cell.vertices c ∧ Vertex.index v = z.
Proof.
  revert good. induction cells as [|c cells IH]; intros good; simpl.
  - split; [auto|]. intros [?|(c & v & Hc & _)]; [done|].
    by apply elem_of_nil in Hc.
  - rewrite IH, elem_of_insert_vertex_indices. split.
    + intros [[?|(v & Hv & Hz)]|(c' & v & Hc & Hv & Hz)]; [by left| |].
      * right. exists c, v. split; [left|done].
      * right. exists c', v. split; [by right|done].
    + intros [?|(c' & v & [->|Hc]%elem_of_cons & Hv & Hz)]; [tauto| |].
      * left. right. by exists v.
      * right. by exists c', v.
Qed.

Lemma filter_cells_unfold P g :
  filter_cells P g =
  mkGrid (type g) (coordinates g) (parameterization g) (name g) (sproj g)
    (filter (λ kv, Vertex.index kv.2 ∈ good_vertices P g) (_vertices g))
    (kept_cells P g)
    (ncells_full g) (nvertices_full g)
    (fold_left Z.max (Cell.index <$> (kept_cells P g).*2) (-1))
    (fold_left Z.max
       (Vertex.index <$>
          (filter (λ kv, Vertex.index kv.2 ∈ good_vertices P g)
             (_vertices g)).*2) (-1)).
Proof.
  unfold filter_cells. simpl. rewrite filter_cells_pass_spec. simpl.
  rewrite filter_vertices_pass_spec. simpl. done.
Qed.

Lemma reachable_run_ops ops g : reachable g → reachable (run_ops ops g).
Proof.
  revert g. induction ops as [|o ops IH]; intros g Hg; simpl; [done|].
  apply IH. by constructor.
Qed.

Lemma filter_cells_invariant P g :
  max_realized_invariant g → max_realized_invariant (filter_cells P g).
Proof.
  intros [Hc Hv]. rewrite filter_cells_unfold. split; simpl.
  - intros key cell Hin.
    pose proof Hin as [_ Hin']%list_elem_of_filter.
    destruct (Hc _ _ Hin') as [Hk _]. split; [done|].
    rewrite <- Hk. apply fold_left_max_ge.
    apply list_elem_of_fmap. exists cell. split; [done|].
    apply list_elem_of_fmap. by exists (key, cell).
  - intros key vertex Hin.
    pose proof Hin as [_ Hin']%list_elem_of_filter.
    destruct (Hv _ _ Hin') as [Hk _]. split; [done|].
    rewrite <- Hk. apply fold_left_max_ge.
    apply list_elem_of_fmap. exists vertex. split; [done|].
    apply list_elem_of_fmap. by exists (key, vertex).
Qed.

Lemma reachable_invariant g : reachable g → max_realized_invariant g.
Proof.
  induction 1 as [ty|o g Hg IH].
  - split; intros ? ? Hin; by apply elem_of_nil in Hin.
  - destruct o; simpl.
    + by apply add_vertex_invariant.
    + by apply add_cell_invariant.
    + by apply filter_cells_invariant.
Qed.

(** C9: in every grid reachable from a freshly constructed one by
    [add_vertex], [add_cell] and [filter_cells], each realized cell and
    vertex is filed under its own index, and
    [_max_realized_cell_index] / [_max_realized_vertex_index] is at least the
    index of every realized cell / vertex.  The insertions never lower a
    tracker, and [filter_cells] sets each tracker to the maximum index over
    the entities it keeps, or to -1 when it keeps none. *)
Theorem max_realized_index_invariant g :
  reachable g →
  max_realized_invariant g ∧
  (∀ cell,
     _max_realized_cell_index g ≤ _max_realized_cell_index (add_cell cell g).1) ∧
  (∀ vertex,
     _max_realized_vertex_index g ≤
     _max_realized_vertex_index (add_vertex vertex g).1) ∧
  (∀ P,
     _max_realized_cell_index (filter_cells P g) =
       fold_left Z.max (cell_indices (filter_cells P g)) (-1) ∧
     _max_realized_vertex_index (filter_cells P g) =
       fold_left Z.max (vertex_indices (filter_cells P g)) (-1)).
Proof.
  intros Hreach. split; [|split; [|split]].
  - induction Hreach as [ty|o g Hg IH].
    + split; intros ? ? Hin; by apply elem_of_nil in Hin.
    + destruct o; simpl;
        auto using add_vertex_invariant, add_cell_invariant,
          filter_cells_invariant.
  - intros cell.
    destruct (add_cell_cases cell g) as [[_ ->]|[_ ->]]; simpl; lia.
  - intros vertex.
    destruct (add_vertex_cases vertex g) as [[_ ->]|[_ ->]]; simpl; lia.
  - intros P. unfold cell_indices, vertex_indices.
    by rewrite filter_cells_unfold.
Qed.

Lemma max_realized_index_invariant_witness :
  max_realized_invariant (filter_cells (λ ix, ix =? 0) strip_grid).
Proof.
  apply max_realized_index_invariant.
  apply (reach_step (OpFilterCells _)).
  apply reachable_run_ops. constructor.
Defined.

(** C10: on a grid satisfying the max-realized-index invariant, an
    insertion with an explicit index that is already present throws
    [DuplicateIndex] and leaves the grid exactly as it was, trackers
    included. *)
Theorem failed_insertion_atomic g :
  max_realized_invariant g →
  (∀ cell, Cell.index cell ≠ -1 →
     is_Some (get_cell g (Cell.index cell)) →
     add_cell cell g = (g, Err DuplicateIndex)) ∧
  (∀ vertex, Vertex.index vertex ≠ -1 →
     is_Some (get_vertex g (Vertex.index vertex)) →
     add_vertex vertex g = (g, Err DuplicateIndex)).
Proof.
  intros [Hc Hv]. split.
  - intros cell Hex Hpresent.
    destruct (add_cell_cases cell g) as [[Hnone _]|[_ ->]];
      rewrite assigned_cell_explicit in * by done.
    + rewrite Hnone in Hpresent. by destruct Hpresent.
    + destruct Hpresent as [c Hlk%dict_lookup_Some].
      destruct (Hc _ _ Hlk) as [_ Hle].
      rewrite Z.max_l by done.
      by rewrite with_max_realized_cell_index_id.
  - intros vertex Hex Hpresent.
    destruct (add_vertex_cases vertex g) as [[Hnone _]|[_ ->]];
      rewrite assigned_vertex_explicit in * by done.
    + rewrite Hnone in Hpresent. by destruct Hpresent.
    + destruct Hpresent as [c Hlk%dict_lookup_Some].
      destruct (Hv _ _ Hlk) as [_ Hle].
      rewrite Z.max_l by done.
      by rewrite with_max_realized_vertex_index_id.
Qed.

Lemma failed_insertion_atomic_witness :
  add_cell (Cell.with_index 1 right_cell) strip_grid =
    (strip_grid, Err DuplicateIndex) ∧
  add_vertex (numbered 4 v20) strip_grid = (strip_grid, Err DuplicateIndex).
Proof.
  assert (Hinv : max_realized_invariant strip_grid).
  { apply reachable_invariant, reachable_run_ops. constructor. }
  destruct (failed_insertion_atomic strip_grid Hinv) as [Hc Hv]. split.
  - apply Hc; [done|]. vm_compute. eauto.
  - apply Hv; [done|]. vm_compute. eauto.
Defined.

(** ** The size of the unfiltered domain *)

Lemma ncells_full_nonneg g : 0 ≤ ncells_full g.
Proof.
  unfold ncells_full, ncells_realized, dict_size.
  destruct (Z.leb_spec 0 (_ncells_full g)); lia.
Qed.

Lemma nvertices_full_nonneg g : 0 ≤ nvertices_full g.
Proof.
  unfold nvertices_full, nvertices_realized, dict_size.
  destruct (Z.leb_spec 0 (_nvertices_full g)); lia.
Qed.

Lemma ncells_full_set g : 0 ≤ _ncells_full g → ncells_full g = _ncells_full g.
Proof.
  intros H. unfold ncells_full. by destruct (Z.leb_spec 0 (_ncells_full g)); [|lia].
Qed.

Lemma nvertices_full_set g :
  0 ≤ _nvertices_full g → nvertices_full g = _nvertices_full g.
Proof.
  intros H. unfold nvertices_full.
  by destruct (Z.leb_spec 0 (_nvertices_full g)); [|lia].
Qed.

Lemma filter_cells_full_fields P g :
  _ncells_full (filter_cells P g) = ncells_full g ∧
  _nvertices_full (filter_cells P g) = nvertices_full g.
Proof. by rewrite filter_cells_unfold. Qed.

Lemma add_cell_full_fields cell g :
  _ncells_full (add_cell cell g).1 = _ncells_full g ∧
  _nvertices_full (add_cell cell g).1 = _nvertices_full g.
Proof. by destruct (add_cell_cases cell g) as [[_ ->]|[_ ->]]. Qed.

Lemma add_vertex_full_fields vertex g :
  _ncells_full (add_vertex vertex g).1 = _ncells_full g ∧
  _nvertices_full (add_vertex vertex g).1 = _nvertices_full g.
Proof. by destruct (add_vertex_cases vertex g) as [[_ ->]|[_ ->]]. Qed.

(** Once both counts are recorded, no operation changes them. *)
Lemma run_op_frozen o g :
  0 ≤ _ncells_full g → 0 ≤ _nvertices_full g →
  _ncells_full (run_op o g) = _ncells_full g ∧
  _nvertices_full (run_op o g) = _nvertices_full g.
Proof.
  intros Hc Hv. destruct o; simpl.
  - apply add_vertex_full_fields.
  - apply add_cell_full_fields.
  - destruct (filter_cells_full_fields include_cell g) as [-> ->].
    by rewrite ncells_full_set, nvertices_full_set.
Qed.

Lemma run_ops_frozen ops g :
  0 ≤ _ncells_full g → 0 ≤ _nvertices_full g →
  _ncells_full (run_ops ops g) = _ncells_full g ∧
  _nvertices_full (run_ops ops g) = _nvertices_full g.
Proof.
  revert g. induction ops as [|o ops IH]; intros g Hc Hv; simpl; [done|].
  destruct (run_op_frozen o g Hc Hv) as [Ec Ev].
  destruct (IH (run_op o g)) as [-> ->]; [lia..|done].
Qed.

(** C5: [ncells_full()] and [nvertices_full()] read the same after
    [filter_cells] as before it; the first filter records the realized
    counts of that moment; and whatever insertions and filters follow, the
    two values stay what they were before the filter. *)
Theorem full_counts_frozen P g :
  ncells_full (filter_cells P g) = ncells_full g ∧
  nvertices_full (filter_cells P g) = nvertices_full g ∧
  (_ncells_full g < 0 →
     _ncells_full (filter_cells P g) = ncells_realized g) ∧
  (_nvertices_full g < 0 →
     _nvertices_full (filter_cells P g) = nvertices_realized g) ∧
  (∀ ops,
     ncells_full (run_ops ops (filter_cells P g)) = ncells_full g ∧
     nvertices_full (run_ops ops (filter_cells P g)) = nvertices_full g).
Proof.
  destruct (filter_cells_full_fields P g) as [Ec Ev].
  pose proof (ncells_full_nonneg g) as Hc.
  pose proof (nvertices_full_nonneg g) as Hv.
  assert (Hfrozen : ∀ ops,
    ncells_full (run_ops ops (filter_cells P g)) = ncells_full g ∧
    nvertices_full (run_ops ops (filter_cells P g)) = nvertices_full g).
  { intros ops.
    destruct (run_ops_frozen ops (filter_cells P g)) as [Ec' Ev'];
      [lia..|].
    rewrite ncells_full_set, nvertices_full_set by lia. lia. }
  split; [apply (Hfrozen [])|]. split; [apply (Hfrozen [])|].
  split; [|split; [|done]].
  - intros Hneg. rewrite Ec. unfold ncells_full.
    by destruct (Z.leb_spec 0 (_ncells_full g)); [lia|].
  - intros Hneg. rewrite Ev. unfold nvertices_full.
    by destruct (Z.leb_spec 0 (_nvertices_full g)); [lia|].
Qed.

Lemma full_counts_frozen_witness :
  _ncells_full (filter_cells (λ ix, ix =? 0) strip_grid) = 2 ∧
  _nvertices_full (filter_cells (λ ix, ix =? 0) strip_grid) = 6 ∧
  ncells_full
    (run_ops [OpFilterCells (λ _, false); OpAddCell right_cell]
       (filter_cells (λ ix, ix =? 0) strip_grid)) = 2.
Proof.
  destruct (full_counts_frozen (λ ix, ix =? 0) strip_grid)
    as (_ & _ & Hc & Hv & Hops).
  split; [|split].
  - rewrite Hc; [reflexivity|]. vm_compute. reflexivity.
  - rewrite Hv; [reflexivity|]. vm_compute. reflexivity.
  - destruct (Hops [OpFilterCells (λ _, false); OpAddCell right_cell])
      as [-> _]. reflexivity.
Defined.

(** ** Filter integrity *)

Lemma cell_vertices_owned_elem g key cell v :
  cell_vertices_owned g → (key, cell) ∈ _cells g → v ∈ Cell.vertices cell →
  ∃ kv vertex, (kv, vertex) ∈ _vertices g ∧
               Vertex.index vertex = Vertex.index v.
Proof.
  intros Howned Hc Hv. unfold cell_vertices_owned in Howned.
  rewrite Forall_forall in Howned. specialize (Howned _ Hc).
  rewrite Forall_forall in Howned. specialize (Howned _ Hv).
  apply list_elem_of_fmap in Howned as (vertex & Hix & Hin).
  apply list_elem_of_fmap in Hin as ([kv vertex'] & -> & Hin).
  by exists kv, vertex'.
Qed.

Lemma filter_cells_cells P g key cell :
  (key, cell) ∈ _cells (filter_cells P g) ↔
  (key, cell) ∈ _cells g ∧ P (Cell.index cell) = true.
Proof.
  rewrite filter_cells_unfold. simpl. unfold kept_cells.
  rewrite list_elem_of_filter. simpl. tauto.
Qed.

Lemma elem_of_good_vertices_referenced P g z :
  z ∈ good_vertices P g ↔ referenced (filter_cells P g) z.
Proof.
  unfold good_vertices, referenced. rewrite elem_of_good_vertices.
  rewrite filter_cells_unfold. simpl. split.
  - intros [?|(c & v & Hc & Hv & Hz)]; [done|].
    apply list_elem_of_fmap in Hc as ([key c'] & -> & Hc).
    by exists key, c', v.
  - intros (key & c & v & Hc & Hv & Hz). right. exists c, v.
    split; [|done]. apply list_elem_of_fmap. by exists (key, c).
Qed.

Lemma filter_cells_vertices P g key vertex :
  (key, vertex) ∈ _vertices (filter_cells P g) ↔
  (key, vertex) ∈ _vertices g ∧
  referenced (filter_cells P g) (Vertex.index vertex).
Proof.
  rewrite <- elem_of_good_vertices_referenced.
  rewrite filter_cells_unfold. simpl.
  rewrite list_elem_of_filter. simpl. tauto.
Qed.

Lemma filter_cells_reject_all P g :
  (∀ ix, P ix = false) →
  _cells (filter_cells P g) = [] ∧ _vertices (filter_cells P g) = [].
Proof.
  intros Hrej.
  assert (Hc : _cells (filter_cells P g) = []).
  { apply elem_of_nil_inv. intros [key cell] [_ HP]%filter_cells_cells.
    by rewrite Hrej in HP. }
  split; [done|].
  apply elem_of_nil_inv.
  intros [key vertex] [_ (k & c & v & Hin & _)]%filter_cells_vertices.
  rewrite Hc in Hin. by apply elem_of_nil in Hin.
Qed.

(** C2: after [filter_cells(P)] every remaining cell has an index accepted
    by [P] (the remaining cells are exactly the accepted ones); a vertex of
    the grid remains exactly when a remaining cell references it, so none
    that is referenced is removed and none that is unreferenced survives;
    when every cell's vertices belong to the grid, the remaining vertex
    indices are exactly the indices referenced by the remaining cells; and
    a predicate that rejects everything leaves no cell and no vertex. *)
Theorem filter_integrity P g :
  (∀ key cell, (key, cell) ∈ _cells (filter_cells P g) →
     P (Cell.index cell) = true) ∧
  (∀ key cell, (key, cell) ∈ _cells (filter_cells P g) ↔
     (key, cell) ∈ _cells g ∧ P (Cell.index cell) = true) ∧
  (∀ key vertex, (key, vertex) ∈ _vertices (filter_cells P g) ↔
     (key, vertex) ∈ _vertices g ∧
     referenced (filter_cells P g) (Vertex.index vertex)) ∧
  (cell_vertices_owned g →
   ∀ z, z ∈ vertex_indices (filter_cells P g) ↔
        referenced (filter_cells P g) z) ∧
  ((∀ ix, P ix = false) →
   _cells (filter_cells P g) = [] ∧ _vertices (filter_cells P g) = []).
Proof.
  split; [|split; [|split; [|split]]].
  - intros key cell Hin. by apply filter_cells_cells in Hin as [_ ?].
  - apply filter_cells_cells.
  - apply filter_cells_vertices.
  - intros Howned z. split.
    + intros (vertex & -> & Hin)%list_elem_of_fmap.
      apply list_elem_of_fmap in Hin as ([key v'] & -> & Hin).
      by apply filter_cells_vertices in Hin as [_ ?].
    + intros Href. pose proof Href as (key & cell & v & Hin & Hv & Hz).
      apply filter_cells_cells in Hin as [Hin _].
      destruct (cell_vertices_owned_elem _ _ _ _ Howned Hin Hv)
        as (kv & vertex & Hvin & Hix).
      apply list_elem_of_fmap. exists vertex. split; [congruence|].
      apply list_elem_of_fmap. exists (kv, vertex). split; [done|].
      apply filter_cells_vertices. split; [done|]. congruence.
  - apply filter_cells_reject_all.
Qed.

Lemma filter_integrity_witness :
  (∀ z, z ∈ vertex_indices (filter_cells (λ ix, ix =? 0) strip_grid) ↔
        referenced (filter_cells (λ ix, ix =? 0) strip_grid) z) ∧
  (_vertices (filter_cells (λ ix, ix =? 0) strip_grid)).*2 =
    [numbered 0 v00; numbered 1 v10; numbered 2 v11; numbered 3 v01] ∧
  _cells (filter_cells (λ _, false) strip_grid) = [].
Proof.
  destruct (filter_integrity (λ ix, ix =? 0) strip_grid)
    as (_ & _ & _ & Hv & _).
  destruct (filter_integrity (λ _, false) strip_grid)
    as (_ & _ & _ & _ & Hrej).
  split; [|split].
  - apply Hv. apply (bool_decide_unpack _). vm_compute. exact I.
  - vm_compute. reflexivity.
  - apply Hrej. reflexivity.
Defined.

(** ** Index assignment across insertions *)

Lemma add_cell_outcome cell g :
  snd (add_cell cell g) = Ok (assigned_cell cell g) ∧
  (Cell.index (assigned_cell cell g) ∉ dict_keys (_cells g)) ∧
  _cells (add_cell cell g).1 =
    _cells g ++
      [(Cell.index (assigned_cell cell g), assigned_cell cell g)]
  ∨
  snd (add_cell cell g) = Err DuplicateIndex ∧
  Cell.index (assigned_cell cell g) ∈ dict_keys (_cells g) ∧
  _cells (add_cell cell g).1 = _cells g.
Proof.
  destruct (add_cell_cases cell g) as [[Hl ->]|[Hl ->]]; simpl.
  - left. split; [done|]. split; [|done]. by apply dict_lookup_None.
  - right. split; [done|]. split; [|done]. by apply dict_lookup_is_Some.
Qed.

Lemma add_cells_cons cell rest g :
  (add_cells (cell :: rest) g).2 =
  (cell, (add_cell cell g).2) :: (add_cells rest (add_cell cell g).1).2.
Proof.
  simpl. destruct (add_cell cell g) as [g' r]. simpl.
  by destruct (add_cells rest g').
Qed.

Lemma auto_assigned_cell_indices_cons e trace :
  auto_assigned_cell_indices (e :: trace) =
  match auto_assigned_cell_index e with
  | Some z => z :: auto_assigned_cell_indices trace
  | None => auto_assigned_cell_indices trace
  end.
Proof. done. Qed.

(** Auto-assigned indices of a sequence never fall below the size the
    collection had when the sequence started, and they grow strictly. *)
Lemma add_cells_auto_sorted cells g :
  Forall (λ z, ncells_realized g ≤ z)
    (auto_assigned_cell_indices (add_cells cells g).2) ∧
  StronglySorted Z.lt (auto_assigned_cell_indices (add_cells cells g).2).
Proof.
  revert g. induction cells as [|cell rest IH]; intros g.
  - split; constructor.
  - rewrite add_cells_cons, auto_assigned_cell_indices_cons.
    destruct (IH (add_cell cell g).1) as [Hlow Hsorted].
    assert (Hsize : ncells_realized g ≤ ncells_realized (add_cell cell g).1).
    { unfold ncells_realized, dict_size.
      destruct (add_cell_outcome cell g) as [(_ & _ & ->)|(_ & _ & ->)];
        rewrite ?length_app; simpl; lia. }
    assert (Hlow' : Forall (λ z, ncells_realized g ≤ z)
      (auto_assigned_cell_indices (add_cells rest (add_cell cell g).1).2)).
    { eapply Forall_impl; [exact Hlow|]. simpl. intros; lia. }
    unfold auto_assigned_cell_index. cbn [fst snd].
    destruct (Z.eqb_spec (Cell.index cell) (-1)) as [Hauto|_]; [|by split].
    destruct (add_cell_outcome cell g) as [(Hr & _ & Hc)|(Hr & _ & _)];
      rewrite Hr; simpl; [|by split].
    rewrite assigned_cell_auto by done. split.
    + constructor; [lia|done].
    + constructor; [done|].
      eapply Forall_impl; [exact Hlow|]. simpl. intros z.
      unfold ncells_realized, dict_size. rewrite Hc, length_app. simpl. lia.
Qed.

(** When every index present lies below the size, a run of insertions that
    all ask for auto-assignment goes through and hands out the next
    consecutive numbers. *)
Lemma add_cells_auto_only cells g :
  (∀ key, key ∈ dict_keys (_cells g) → key < ncells_realized g) →
  Forall (λ c, Cell.index c = -1) cells →
  auto_assigned_cell_indices (add_cells cells g).2 =
  seqZ (ncells_realized g) (Z.of_nat (length cells)).
Proof.
  revert g. induction cells as [|cell rest IH]; intros g Hdense Hauto.
  - done.
  - apply Forall_cons in Hauto as [Hauto Hrest].
    rewrite add_cells_cons, auto_assigned_cell_indices_cons.
    unfold auto_assigned_cell_index. cbn [fst snd]. rewrite Hauto. simpl.
    destruct (add_cell_outcome cell g) as [(Hr & _ & Hc)|(_ & Hin & _)].
    + rewrite Hr, assigned_cell_auto by done.
      rewrite seqZ_cons by lia. f_equal.
      rewrite IH; [|..|done].
      * f_equal; [|lia]. unfold ncells_realized, dict_size.
        rewrite Hc, length_app. simpl. lia.
      * intros key. unfold ncells_realized, dict_size, dict_keys.
        rewrite Hc, fmap_app, length_app, elem_of_app. simpl.
        rewrite list_elem_of_singleton, assigned_cell_auto by done.
        intros [Hk%Hdense| ->]; unfold ncells_realized, dict_size in *; lia.
    + rewrite assigned_cell_auto in Hin by done.
      apply Hdense in Hin. lia.
Qed.

Lemma add_vertex_outcome vertex g :
  snd (add_vertex vertex g) = Ok (assigned_vertex vertex g) ∧
  (Vertex.index (assigned_vertex vertex g) ∉ dict_keys (_vertices g)) ∧
  _vertices (add_vertex vertex g).1 =
    _vertices g ++
      [(Vertex.index (assigned_vertex vertex g), assigned_vertex vertex g)]
  ∨
  snd (add_vertex vertex g) = Err DuplicateIndex ∧
  Vertex.index (assigned_vertex vertex g) ∈ dict_keys (_vertices g) ∧
  _vertices (add_vertex vertex g).1 = _vertices g.
Proof.
  destruct (add_vertex_cases vertex g) as [[Hl ->]|[Hl ->]]; simpl.
  - left. split; [done|]. split; [|done]. by apply dict_lookup_None.
  - right. split; [done|]. split; [|done]. by apply dict_lookup_is_Some.
Qed.

Lemma add_vertices_cons vertex rest g :
  (add_vertices (vertex :: rest) g).2 =
  (vertex, (add_vertex vertex g).2) :: (add_vertices rest (add_vertex vertex g).1).2.
Proof.
  simpl. destruct (add_vertex vertex g) as [g' r]. simpl.
  by destruct (add_vertices rest g').
Qed.

Lemma auto_assigned_vertex_indices_cons e trace :
  auto_assigned_vertex_indices (e :: trace) =
  match auto_assigned_vertex_index e with
  | Some z => z :: auto_assigned_vertex_indices trace
  | None => auto_assigned_vertex_indices trace
  end.
Proof. done. Qed.

(** Auto-assigned indices of a sequence never fall below the size the
    collection had when the sequence started, and they grow strictly. *)
Lemma add_vertices_auto_sorted vertices g :
  Forall (λ z, nvertices_realized g ≤ z)
    (auto_assigned_vertex_indices (add_vertices vertices g).2) ∧
  StronglySorted Z.lt (auto_assigned_vertex_indices (add_vertices vertices g).2).
Proof.
  revert g. induction vertices as [|vertex rest IH]; intros g.
  - split; constructor.
  - rewrite add_vertices_cons, auto_assigned_vertex_indices_cons.
    destruct (IH (add_vertex vertex g).1) as [Hlow Hsorted].
    assert (Hsize : nvertices_realized g ≤ nvertices_realized (add_vertex vertex g).1).
    { unfold nvertices_realized, dict_size.
      destruct (add_vertex_outcome vertex g) as [(_ & _ & ->)|(_ & _ & ->)];
        rewrite ?length_app; simpl; lia. }
    assert (Hlow' : Forall (λ z, nvertices_realized g ≤ z)
      (auto_assigned_vertex_indices (add_vertices rest (add_vertex vertex g).1).2)).
    { eapply Forall_impl; [exact Hlow|]. simpl. intros; lia. }
    unfold auto_assigned_vertex_index. cbn [fst snd].
    destruct (Z.eqb_spec (Vertex.index vertex) (-1)) as [Hauto|_]; [|by split].
    destruct (add_vertex_outcome vertex g) as [(Hr & _ & Hc)|(Hr & _ & _)];
      rewrite Hr; simpl; [|by split].
    rewrite assigned_vertex_auto by done. split.
    + constructor; [lia|done].
    + constructor; [done|].
      eapply Forall_impl; [exact Hlow|]. simpl. intros z.
      unfold nvertices_realized, dict_size. rewrite Hc, length_app. simpl. lia.
Qed.

(** When every index present lies below the size, a run of insertions that
    all ask for auto-assignment goes through and hands out the next
    consecutive numbers. *)
Lemma add_vertices_auto_only vertices g :
  (∀ key, key ∈ dict_keys (_vertices g) → key < nvertices_realized g) →
  Forall (λ c, Vertex.index c = -1) vertices →
  auto_assigned_vertex_indices (add_vertices vertices g).2 =
  seqZ (nvertices_realized g) (Z.of_nat (length vertices)).
Proof.
  revert g. induction vertices as [|vertex rest IH]; intros g Hdense Hauto.
  - done.
  - apply Forall_cons in Hauto as [Hauto Hrest].
    rewrite add_vertices_cons, auto_assigned_vertex_indices_cons.
    unfold auto_assigned_vertex_index. cbn [fst snd]. rewrite Hauto. simpl.
    destruct (add_vertex_outcome vertex g) as [(Hr & _ & Hc)|(_ & Hin & _)].
    + rewrite Hr, assigned_vertex_auto by done.
      rewrite seqZ_cons by lia. f_equal.
      rewrite IH; [|..|done].
      * f_equal; [|lia]. unfold nvertices_realized, dict_size.
        rewrite Hc, length_app. simpl. lia.
      * intros key. unfold nvertices_realized, dict_size, dict_keys.
        rewrite Hc, fmap_app, length_app, elem_of_app. simpl.
        rewrite list_elem_of_singleton, assigned_vertex_auto by done.
        intros [Hk%Hdense| ->]; unfold nvertices_realized, dict_size in *; lia.
    + rewrite assigned_vertex_auto in Hin by done.
      apply Hdense in Hin. lia.
Qed.

Lemma new_Grid_dense_cells ty key :
  key ∈ dict_keys (_cells (new_Grid ty)) → key < ncells_realized (new_Grid ty).
Proof. simpl. by intros ?%elem_of_nil. Qed.

Lemma new_Grid_dense_vertices ty key :
  key ∈ dict_keys (_vertices (new_Grid ty)) →
  key < nvertices_realized (new_Grid ty).
Proof. simpl. by intros ?%elem_of_nil. Qed.

(** C3, as stated, fails: a cell inserted with the sentinel index into a
    grid that holds one cell under the explicit index 1 is auto-assigned the
    index 1 and the insertion throws [DuplicateIndex]. *)
Lemma auto_assigned_index_collides :
  Cell.index square_cell = -1 ∧
  is_Some
    (get_cell (add_cell (Cell.with_index 1 right_cell) (new_Grid GENERIC)).1 1) ∧
  (add_cell square_cell
     (add_cell (Cell.with_index 1 right_cell) (new_Grid GENERIC)).1).2 =
    Err DuplicateIndex.
Proof. split; [done|]. split; [|done]. vm_compute. eauto. Qed.

(** C3, amended: an insertion whose explicit index is already present
    throws [DuplicateIndex]; an insertion with the sentinel index is given
    the current size of the collection, and throws [DuplicateIndex] exactly
    when that number is already present as an index; over any sequence of
    insertions the auto-assigned indices of the insertions that went through
    are strictly increasing; and from a fresh grid a sequence that uses only
    auto-assignment never collides and hands out 0, 1, 2, ... in order. *)
Theorem index_uniqueness :
  (∀ g cell, Cell.index cell ≠ -1 →
     is_Some (get_cell g (Cell.index cell)) →
     (add_cell cell g).2 = Err DuplicateIndex) ∧
  (∀ g vertex, Vertex.index vertex ≠ -1 →
     is_Some (get_vertex g (Vertex.index vertex)) →
     (add_vertex vertex g).2 = Err DuplicateIndex) ∧
  (∀ g cell, Cell.index cell = -1 →
     ((add_cell cell g).2 = Err DuplicateIndex ↔
      is_Some (get_cell g (ncells_realized g))) ∧
     ((add_cell cell g).2 =
        Ok (Cell.with_index (ncells_realized g) cell) ↔
      get_cell g (ncells_realized g) = None)) ∧
  (∀ g vertex, Vertex.index vertex = -1 →
     ((add_vertex vertex g).2 = Err DuplicateIndex ↔
      is_Some (get_vertex g (nvertices_realized g))) ∧
     ((add_vertex vertex g).2 =
        Ok (Vertex.with_index (nvertices_realized g) vertex) ↔
      get_vertex g (nvertices_realized g) = None)) ∧
  (∀ g cells,
     StronglySorted Z.lt
       (auto_assigned_cell_indices (add_cells cells g).2)) ∧
  (∀ g vertices,
     StronglySorted Z.lt
       (auto_assigned_vertex_indices (add_vertices vertices g).2)) ∧
  (∀ ty cells, Forall (λ c, Cell.index c = -1) cells →
     auto_assigned_cell_indices (add_cells cells (new_Grid ty)).2 =
     seqZ 0 (Z.of_nat (length cells))) ∧
  (∀ ty vertices, Forall (λ v, Vertex.index v = -1) vertices →
     auto_assigned_vertex_indices (add_vertices vertices (new_Grid ty)).2 =
     seqZ 0 (Z.of_nat (length vertices))).
Proof.
  repeat apply conj.
  - intros g cell Hex Hpresent.
    destruct (add_cell_cases cell g) as [[Hnone _]|[_ ->]]; [|done].
    rewrite assigned_cell_explicit in Hnone by done.
    rewrite Hnone in Hpresent. by destruct Hpresent.
  - intros g vertex Hex Hpresent.
    destruct (add_vertex_cases vertex g) as [[Hnone _]|[_ ->]]; [|done].
    rewrite assigned_vertex_explicit in Hnone by done.
    rewrite Hnone in Hpresent. by destruct Hpresent.
  - intros g cell Hauto.
    assert (Hcell : assigned_cell cell g =
                    Cell.with_index (ncells_realized g) cell).
    { unfold assigned_cell. by rewrite Hauto. }
    destruct (add_cell_cases cell g) as [[Hl ->]|[Hl ->]];
      rewrite assigned_cell_auto in Hl by done; rewrite ?Hcell; simpl.
    + rewrite Hl. split; (split; [done|]); [by intros [? ?]|done].
    + split; (split; [done|]); [done|]. intros Hn. rewrite Hn in Hl.
      by destruct Hl.
  - intros g vertex Hauto.
    assert (Hvertex : assigned_vertex vertex g =
                      Vertex.with_index (nvertices_realized g) vertex).
    { unfold assigned_vertex. by rewrite Hauto. }
    destruct (add_vertex_cases vertex g) as [[Hl ->]|[Hl ->]];
      rewrite assigned_vertex_auto in Hl by done; rewrite ?Hvertex; simpl.
    + rewrite Hl. split; (split; [done|]); [by intros [? ?]|done].
    + split; (split; [done|]); [done|]. intros Hn. rewrite Hn in Hl.
      by destruct Hl.
  - intros g cells. apply add_cells_auto_sorted.
  - intros g vertices. apply add_vertices_auto_sorted.
  - intros ty cells Hauto.
    by rewrite add_cells_auto_only; [|apply new_Grid_dense_cells|].
  - intros ty vertices Hauto.
    by rewrite add_vertices_auto_only; [|apply new_Grid_dense_vertices|].
Qed.

Lemma index_uniqueness_witness :
  (add_cell (Cell.with_index 1 right_cell) strip_grid).2 =
    Err DuplicateIndex ∧
  auto_assigned_vertex_indices
    (add_vertices [v00; v10; v11; v01] (new_Grid GENERIC)).2 = [0; 1; 2; 3].
Proof.
  destruct index_uniqueness as (Hc & _ & _ & _ & _ & _ & _ & Hv).
  split.
  - apply Hc; [done|]. vm_compute. eauto.
  - rewrite Hv; [reflexivity|]. repeat constructor.
Defined.

(** ** Geometry *)

(** C6: in a cell-centered grid, for a cell whose vertices are
    (0,0), (1,0), (1,1), (0,1) in that order, [area_of_polygon] is exactly
    1.0 and [Grid::centroid] is exactly (0.5, 0.5). *)
Theorem unit_square_area_centroid g ix cell :
  parameterization g = L0 →
  get_cell g ix = Some cell →
  cell_coordinates cell = [(0, 0); (1, 0); (1, 1); (0, 1)]%float →
  area_of_polygon cell = Some 1%float ∧
  centroid g ix = Some (0.5, 0.5)%float.
Proof.
  intros Hp Hget Hxy. unfold centroid. rewrite Hp, Hget. simpl.
  unfold area_of_polygon, cell_coordinates in *.
  destruct (Cell.vertices cell) as [|[i0 x0 y0] [|[i1 x1 y1] [|[i2 x2 y2]
    [|[i3 x3 y3] [|]]]]]; try discriminate Hxy.
  simpl in Hxy. injection Hxy as -> -> -> -> -> -> -> ->.
  split; reflexivity.
Qed.

Lemma unit_square_area_centroid_witness :
  area_of_polygon (assigned_cell square_cell (new_Grid GENERIC)) =
    Some 1%float ∧
  centroid square_grid 0 = Some (0.5, 0.5)%float.
Proof.
  apply (unit_square_area_centroid square_grid 0); reflexivity.
Defined.

(** The incremental loop of the projected variant walks the transformed
    polygon exactly as [area_loop] does, and calls the projection once per
    vertex it passes. *)
Lemma proj_area_loop_refines proj rest it0 ret calls :
  proj_area_loop proj (Vertex.x it0) (Vertex.y it0) rest ret calls =
  (let '(r, last) := area_loop it0 (transform_vertex proj <$> rest) ret in
   (r, Vertex.x last, Vertex.y last,
    calls ++ ((λ v, (Vertex.x v, Vertex.y v)) <$> rest))).
Proof.
  revert it0 ret calls. induction rest as [|v rest IH]; intros it0 ret calls.
  - simpl. by rewrite app_nil_r.
  - destruct (proj (Vertex.x v) (Vertex.y v)) as [x1 y1] eqn:E.
    assert (Htv : transform_vertex proj v =
                  Vertex.mk (Vertex.index v) x1 y1).
    { unfold transform_vertex. by rewrite E. }
    rewrite !fmap_cons. cbn [proj_area_loop area_loop]. rewrite E, Htv.
    rewrite (IH (Vertex.mk (Vertex.index v) x1 y1)).
    cbn [Vertex.x Vertex.y]. by rewrite <- app_assoc.
Qed.

(** C7: [area_of_proj_polygon(cell, proj)] equals [area_of_polygon] of the
    polygon obtained by transforming every vertex of the cell through
    [proj], and it hands each vertex to [proj.transform] exactly once, in
    order. *)
Theorem area_of_proj_polygon_refines cell proj :
  Cell.vertices cell ≠ [] →
  area_of_proj_polygon cell proj = area_of_polygon (transform_cell proj cell) ∧
  is_Some (area_of_proj_polygon cell proj) ∧
  snd <$> area_of_proj_polygon_traced cell proj = Some (cell_coordinates cell).
Proof.
  intros Hne.
  unfold area_of_proj_polygon, area_of_proj_polygon_traced, area_of_polygon,
    cell_coordinates.
  cbn [transform_cell Cell.vertices].
  destruct (Cell.vertices cell) as [|v0 rest]; [done|].
  destruct (proj (Vertex.x v0) (Vertex.y v0)) as [x00 y00] eqn:E.
  assert (Htv : transform_vertex proj v0 =
                Vertex.mk (Vertex.index v0) x00 y00).
  { unfold transform_vertex. by rewrite E. }
  rewrite !fmap_cons, Htv.
  pose proof (proj_area_loop_refines proj rest
    (Vertex.mk (Vertex.index v0) x00 y00) 0%float
    [(Vertex.x v0, Vertex.y v0)]) as Hloop.
  cbn [Vertex.x Vertex.y] in Hloop. rewrite Hloop.
  destruct (area_loop _ _ _) as [r last]. simpl. eauto.
Qed.

Lemma area_of_proj_polygon_refines_witness :
  area_of_proj_polygon square_cell (λ x y, (x * 2, y + x)%float) =
  area_of_polygon (transform_cell (λ x y, (x * 2, y + x)%float) square_cell).
Proof.
  apply (area_of_proj_polygon_refines square_cell). discriminate.
Defined.

(** ** Dense area arrays *)

Lemma vector_at_put_Ok {A} (v : list A) ix a :
  0 ≤ ix < Z.of_nat (length v) →
  vector_at_put v ix a = Ok (<[Z.to_nat ix := a]> v).
Proof.
  intros H. unfold vector_at_put.
  destruct (Z.leb_spec 0 ix); [|lia].
  destruct (Z.ltb_spec ix (Z.of_nat (length v))); [done|lia].
Qed.

Lemma vector_at_put_Err {A} (v : list A) ix a :
  ¬ (0 ≤ ix < Z.of_nat (length v)) → vector_at_put v ix a = Err OutOfRange.
Proof.
  intros H. unfold vector_at_put.
  destruct (Z.leb_spec 0 ix); [|done].
  destruct (Z.ltb_spec ix (Z.of_nat (length v))); [lia|done].
Qed.

Lemma vector_at_put_length {A} (v v' : list A) ix a :
  vector_at_put v ix a = Ok v' → length v' = length v.
Proof.
  unfold vector_at_put. destruct (_ && _); [|done].
  intros [= <-]. apply length_insert.
Qed.

(** The loop of [get_native_areas] on in-range, pairwise distinct indices:
    it succeeds, keeps the length, leaves each cell's area at the cell's
    index and touches no other position. *)
Lemma native_areas_loop_in_range (cells : Dict Cell.t) (area : list double) :
  NoDup (Cell.index <$> cells.*2) →
  (∀ z, z ∈ Cell.index <$> cells.*2 → 0 ≤ z < Z.of_nat (length area)) →
  ∃ area',
    native_areas_loop cells area = Ok area' ∧
    length area' = length area ∧
    (∀ key cell, (key, cell) ∈ cells →
       area' !! Z.to_nat (Cell.index cell) = Some (Cell.area cell)) ∧
    (∀ p, Z.of_nat p ∉ Cell.index <$> cells.*2 → area' !! p = area !! p).
Proof.
  revert area. induction cells as [|[key cell] cells IH]; intros area Hnd Hr.
  - exists area. split; [done|]. split; [done|].
    split; [by intros ? ? ?%elem_of_nil|done].
  - rewrite !fmap_cons in Hnd, Hr. cbn [snd] in Hnd, Hr.
    apply NoDup_cons in Hnd as [Hfresh Hnd].
    assert (Hin : 0 ≤ Cell.index cell < Z.of_nat (length area)).
    { apply Hr. left. }
    cbn [native_areas_loop]. rewrite vector_at_put_Ok by done.
    cbn [mbind result_bind].
    destruct (IH (<[Z.to_nat (Cell.index cell) := Cell.area cell]> area) Hnd)
      as (area' & Hloop & Hlen & Hcells & Hother).
    { intros z Hz. rewrite length_insert. apply Hr. by right. }
    exists area'. rewrite length_insert in Hlen.
    split; [done|]. split; [done|]. split.
    + intros key' cell' [[= -> ->]|Hc]%elem_of_cons; [|by eapply Hcells].
      rewrite Hother.
      * apply list_lookup_insert_eq. lia.
      * by rewrite Z2Nat.id by lia.
    + intros p Hp. rewrite !fmap_cons in Hp. cbn [snd] in Hp.
      apply not_elem_of_cons in Hp as [Hne Hp].
      rewrite Hother by done. apply list_lookup_insert_ne. lia.
Qed.

Lemma native_areas_loop_out_of_range (cells : Dict Cell.t)
    (area : list double) :
  (∃ z, z ∈ Cell.index <$> cells.*2 ∧ ¬ (0 ≤ z < Z.of_nat (length area))) →
  native_areas_loop cells area = Err OutOfRange.
Proof.
  revert area. induction cells as [|[key cell] cells IH];
    intros area (z & Hz & Hout).
  - by apply elem_of_nil in Hz.
  - cbn [native_areas_loop].
    destruct (decide (0 ≤ Cell.index cell < Z.of_nat (length area)))
      as [Hin|Hnin].
    + rewrite vector_at_put_Ok by done. cbn [mbind result_bind].
      apply IH. exists z. rewrite length_insert. split; [|done].
      rewrite !fmap_cons in Hz. cbn [snd] in Hz.
      apply elem_of_cons in Hz as [->|Hz]; [done|done].
    + by rewrite vector_at_put_Err.
Qed.

(** C8, as stated, fails: on a grid whose domain size was frozen at one
    cell before a cell with index 3 was added, [get_native_areas()] throws
    instead of returning an array. *)
Lemma get_native_areas_throws :
  reachable late_cell_grid ∧
  ncells_full late_cell_grid = 1 ∧
  cell_indices late_cell_grid = [0; 3] ∧
  get_native_areas late_cell_grid = Err OutOfRange.
Proof.
  split; [|by vm_compute].
  apply reachable_run_ops. constructor.
Qed.

(** C8, amended: when the realized cells have pairwise distinct indices, all
    within [0, ncells_full()), [get_native_areas()] returns an array of
    length [ncells_full()] that holds each realized cell's stored area at the
    cell's index and NaN at every other position; when some realized cell's
    index lies outside that range, it throws. *)
Theorem get_native_areas_dense g :
  (NoDup (cell_indices g) →
   (∀ z, z ∈ cell_indices g → 0 ≤ z < ncells_full g) →
   ∃ area,
     get_native_areas g = Ok area ∧
     Z.of_nat (length area) = ncells_full g ∧
     (∀ key cell, (key, cell) ∈ _cells g →
        area !! Z.to_nat (Cell.index cell) = Some (Cell.area cell)) ∧
     (∀ p, (p < length area)%nat → Z.of_nat p ∉ cell_indices g →
        area !! p = Some nan)) ∧
  ((∃ z, z ∈ cell_indices g ∧ ¬ (0 ≤ z < ncells_full g)) →
   get_native_areas g = Err OutOfRange).
Proof.
  pose proof (ncells_full_nonneg g) as Hnn.
  unfold get_native_areas, cell_indices. split.
  - intros Hnd Hr.
    destruct (native_areas_loop_in_range (_cells g)
                (replicate (Z.to_nat (ncells_full g)) nan) Hnd)
      as (area & Hloop & Hlen & Hcells & Hother).
    { intros z Hz. rewrite length_replicate. specialize (Hr z Hz). lia. }
    rewrite length_replicate in Hlen.
    exists area. split; [done|]. split; [lia|]. split; [done|].
    intros p Hp Hnot. rewrite Hother by done.
    apply lookup_replicate_2. lia.
  - intros (z & Hz & Hout). apply native_areas_loop_out_of_range.
    exists z. split; [done|]. rewrite length_replicate. lia.
Qed.

Lemma get_native_areas_dense_witness :
  (∃ area,
     get_native_areas strip_grid = Ok area ∧
     Z.of_nat (length area) = ncells_full strip_grid) ∧
  get_native_areas late_cell_grid = Err OutOfRange.
Proof.
  destruct (get_native_areas_dense strip_grid) as [Hin _].
  destruct (get_native_areas_dense late_cell_grid) as [_ Hout].
  split.
  - destruct Hin as (area & Ha & Hlen & _).
    + apply (bool_decide_unpack _). vm_compute. exact I.
    + intros z Hz. vm_compute in Hz.
      apply elem_of_cons in Hz as [->|Hz]; [by vm_compute|].
      apply elem_of_cons in Hz as [->|Hz]; [by vm_compute|].
      by apply elem_of_nil in Hz.
    + by exists area.
  - apply Hout. exists 3. split.
    + vm_compute. right. left.
    + assert (E : ncells_full late_cell_grid = 1) by reflexivity.
      rewrite E. lia.
Defined.

(** ** The sparse operator builder *)

(** C4: fed the triples (0,0,2.0), (0,0,3.0), (1,2,1.0) with declared native
    extents (3,4) and empty axis tables, [to_eigen_M] yields a 2 x 2 matrix;
    native rows 0, 1 and native columns 0, 2 get the dense positions 0, 1 in
    first-seen order; the entry of native (0,0) is 5.0 and that of native
    (1,2) is 1.0; the recorded native extents are (3,4), and the native
    indices never seen have no dense position. *)
Theorem to_eigen_M_example :
  rows (to_eigen_M example_BvA (SparseSet_new, SparseSet_new)).1 = 2 ∧
  cols (to_eigen_M example_BvA (SparseSet_new, SparseSet_new)).1 = 2 ∧
  _d2s (to_eigen_M example_BvA (SparseSet_new, SparseSet_new)).2.1 = [0; 1] ∧
  _d2s (to_eigen_M example_BvA (SparseSet_new, SparseSet_new)).2.2 = [0; 2] ∧
  (to_dense (to_eigen_M example_BvA (SparseSet_new, SparseSet_new)).2.1
     <$> [0; 1; 2]) = [Some 0; Some 1; None] ∧
  (to_dense (to_eigen_M example_BvA (SparseSet_new, SparseSet_new)).2.2
     <$> [0; 1; 2; 3]) = [Some 0; None; Some 1; None] ∧
  coeff (to_eigen_M example_BvA (SparseSet_new, SparseSet_new)).1 0 0
    = 5.0%float ∧
  coeff (to_eigen_M example_BvA (SparseSet_new, SparseSet_new)).1 1 1
    = 1.0%float ∧
  sparse_extent (to_eigen_M example_BvA (SparseSet_new, SparseSet_new)).2.1
    = 3 ∧
  sparse_extent (to_eigen_M example_BvA (SparseSet_new, SparseSet_new)).2.2
    = 4.
Proof. repeat split; vm_compute; reflexivity. Qed.

(** ** Overwriting a stretch of an array *)

Section overwrite.
Context {A : Type}.
Implicit Types (data vals : list A) (pos : nat).

Lemma put_at_overwrite data pos vals :
  (pos + length vals ≤ length data)%nat →
  put_at data pos vals = Ok (overwrite pos vals data).
Proof. intros H. unfold put_at. by rewrite decide_True. Qed.

Lemma length_overwrite data pos vals :
  (pos + length vals ≤ length data)%nat →
  length (overwrite pos vals data) = length data.
Proof.
  intros H. unfold overwrite.
  rewrite !length_app, length_take, length_drop. lia.
Qed.

Lemma overwrite_nil data pos :
  (pos ≤ length data)%nat → overwrite pos [] data = data.
Proof.
  intros H. unfold overwrite. simpl. rewrite Nat.add_0_r.
  apply take_drop.
Qed.

Lemma overwrite_app data pos vals1 vals2 :
  (pos + length vals1 + length vals2 ≤ length data)%nat →
  overwrite (pos + length vals1) vals2 (overwrite pos vals1 data) =
  overwrite pos (vals1 ++ vals2) data.
Proof.
  intros H. unfold overwrite at 1.
  assert (Hlen : length (take pos data) = pos) by (rewrite length_take; lia).
  replace (take (pos + length vals1) (overwrite pos vals1 data))
    with (take pos data ++ vals1).
  2:{ unfold overwrite. rewrite app_assoc.
      rewrite take_app_length'; [done|].
      rewrite length_app. lia. }
  replace (drop (pos + length vals1 + length vals2) (overwrite pos vals1 data))
    with (drop (pos + length vals1 + length vals2) data).
  2:{ unfold overwrite. rewrite app_assoc.
      rewrite drop_app_ge by (rewrite length_app; lia).
      rewrite drop_drop. f_equal. rewrite length_app. lia. }
  unfold overwrite. rewrite length_app, <- !app_assoc.
  by rewrite Nat.add_assoc.
Qed.

Lemma overwrite_all data vals :
  length vals = length data → overwrite 0 vals data = vals.
Proof.
  intros H. unfold overwrite. simpl. rewrite drop_ge by lia.
  apply app_nil_r.
Qed.

End overwrite.

(** ** The write loops *)

Lemma put_ints_overwrite dims atts data pos vals :
  (pos + length vals ≤ length data)%nat →
  put_ints (mkNcVar dims (NcInt data) atts) pos vals =
  Ok (mkNcVar dims (NcInt (overwrite pos vals data)) atts).
Proof. intros H. unfold put_ints. simpl. by rewrite put_at_overwrite. Qed.

Lemma put_doubles_overwrite dims atts data pos vals :
  (pos + length vals ≤ length data)%nat →
  put_doubles (mkNcVar dims (NcDouble data) atts) pos vals =
  Ok (mkNcVar dims (NcDouble (overwrite pos vals data)) atts).
Proof. intros H. unfold put_doubles. simpl. by rewrite put_at_overwrite. Qed.

Lemma length_flat_xy vs : length (flat_xy vs) = (length vs * 2)%nat.
Proof.
  unfold flat_xy. induction vs as [|v vs IH]; [done|].
  rewrite bind_cons, length_app, IH. simpl. lia.
Qed.

Lemma length_flat_ijk cs : length (flat_ijk cs) = (length cs * 3)%nat.
Proof.
  unfold flat_ijk. induction cs as [|c cs IH]; [done|].
  rewrite bind_cons, length_app, IH. simpl. lia.
Qed.

Lemma length_flat_vertex_refs cs :
  length (flat_vertex_refs cs) =
  fold_left (λ n c, (n + Cell.size c)%nat) cs 0%nat.
Proof.
  assert (H : ∀ n, fold_left (λ n c, (n + Cell.size c)%nat) cs n =
                   (n + length (flat_vertex_refs cs))%nat).
  { unfold flat_vertex_refs. induction cs as [|c cs IH]; intros n.
    - simpl. lia.
    - cbn [fold_left]. rewrite bind_cons, IH, length_app, length_fmap.
      unfold Cell.size. lia. }
  by rewrite H.
Qed.

Lemma length_vertex_refs_starts ivref cs :
  length (vertex_refs_starts ivref cs) = length cs.
Proof.
  revert ivref. induction cs as [|c cs IH]; intros ivref; simpl; [done|].
  by rewrite IH.
Qed.

Lemma write_vertices_spec vs i dims1 atts1 d1 dims2 atts2 d2 :
  (i + length vs ≤ length d1)%nat →
  ((i + length vs) * 2 ≤ length d2)%nat →
  write_vertices vs i (mkNcVar dims1 (NcInt d1) atts1)
    (mkNcVar dims2 (NcDouble d2) atts2) =
  Ok (mkNcVar dims1 (NcInt (overwrite i (Vertex.index <$> vs) d1)) atts1,
      mkNcVar dims2 (NcDouble (overwrite (i * 2) (flat_xy vs) d2)) atts2).
Proof.
  revert i d1 d2. induction vs as [|v vs IH]; intros i d1 d2 H1 H2.
  - simpl in *. rewrite !overwrite_nil by lia. done.
  - simpl in H1, H2. cbn [write_vertices].
    rewrite put_ints_overwrite by (simpl; lia). cbn [mbind result_bind].
    rewrite put_doubles_overwrite by (simpl; lia). cbn [mbind result_bind].
    rewrite IH by (rewrite length_overwrite; simpl; lia).
    do 3 f_equal.
    + replace (S i) with (i + length [Vertex.index v])%nat by (simpl; lia).
      rewrite overwrite_app by (rewrite length_fmap; simpl; lia). done.
    + replace (S i * 2)%nat
        with (i * 2 + length [Vertex.x v; Vertex.y v])%nat by (simpl; lia).
      rewrite overwrite_app by (rewrite length_flat_xy; simpl; lia). done.
Qed.

Lemma write_vertex_refs_spec vs ivref dims atts d :
  (ivref + length vs ≤ length d)%nat →
  write_vertex_refs vs ivref (mkNcVar dims (NcInt d) atts) =
  Ok (mkNcVar dims (NcInt (overwrite ivref (Vertex.index <$> vs) d)) atts,
      (ivref + length vs)%nat).
Proof.
  revert ivref d. induction vs as [|v vs IH]; intros ivref d H.
  - simpl in *. rewrite overwrite_nil by lia. by rewrite Nat.add_0_r.
  - simpl in H. cbn [write_vertex_refs].
    rewrite put_ints_overwrite by (simpl; lia). cbn [mbind result_bind].
    rewrite IH by (rewrite length_overwrite; simpl; lia).
    do 2 f_equal; [|simpl; lia]. do 2 f_equal.
    replace (S ivref) with (ivref + length [Vertex.index v])%nat
      by (simpl; lia).
    rewrite overwrite_app by (rewrite length_fmap; simpl; lia). done.
Qed.

Lemma write_cells_spec cs i ivref
    dims1 atts1 d1 dims2 atts2 d2 dims3 atts3 d3 dims4 atts4 d4
    dims5 atts5 d5 :
  (i + length cs ≤ length d1)%nat →
  ((i + length cs) * 3 ≤ length d2)%nat →
  (i + length cs ≤ length d3)%nat →
  (ivref + length (flat_vertex_refs cs) ≤ length d4)%nat →
  (i + length cs ≤ length d5)%nat →
  write_cells cs i ivref
    (mkCellVars (mkNcVar dims1 (NcInt d1) atts1)
       (mkNcVar dims2 (NcInt d2) atts2)
       (mkNcVar dims3 (NcDouble d3) atts3)
       (mkNcVar dims4 (NcInt d4) atts4)
       (mkNcVar dims5 (NcInt d5) atts5)) =
  Ok (mkCellVars
        (mkNcVar dims1 (NcInt (overwrite i (Cell.index <$> cs) d1)) atts1)
        (mkNcVar dims2 (NcInt (overwrite (i * 3) (flat_ijk cs) d2)) atts2)
        (mkNcVar dims3 (NcDouble (overwrite i (Cell.area <$> cs) d3)) atts3)
        (mkNcVar dims4
           (NcInt (overwrite ivref (flat_vertex_refs cs) d4)) atts4)
        (mkNcVar dims5
           (NcInt (overwrite i (vertex_refs_starts ivref cs) d5)) atts5),
      (i + length cs)%nat,
      (ivref + length (flat_vertex_refs cs))%nat).
Proof.
  revert i ivref d1 d2 d3 d4 d5.
  induction cs as [|c cs IH]; intros i ivref d1 d2 d3 d4 d5 H1 H2 H3 H4 H5.
  - simpl in *. rewrite !overwrite_nil by lia. by rewrite !Nat.add_0_r.
  - assert (Hrefs : flat_vertex_refs (c :: cs) =
                    (Vertex.index <$> Cell.vertices c) ++ flat_vertex_refs cs)
      by done.
    rewrite Hrefs in *. rewrite length_app, length_fmap in H4.
    simpl in H1, H2, H3, H5. cbn [write_cells cv_index cv_ijk cv_area
      cv_vertex_refs cv_vertex_refs_start].
    rewrite put_ints_overwrite by (simpl; lia). cbn [mbind result_bind].
    rewrite put_ints_overwrite by (simpl; lia). cbn [mbind result_bind].
    rewrite put_doubles_overwrite by (simpl; lia). cbn [mbind result_bind].
    rewrite put_ints_overwrite by (simpl; lia). cbn [mbind result_bind].
    rewrite write_vertex_refs_spec by lia. cbn [mbind result_bind].
    rewrite IH;
      [|rewrite length_overwrite; rewrite ?length_fmap; simpl; lia..].
    assert (E1 : overwrite (S i) (Cell.index <$> cs)
                   (overwrite i [Cell.index c] d1) =
                 overwrite i (Cell.index <$> c :: cs) d1).
    { replace (S i) with (i + length [Cell.index c])%nat by (simpl; lia).
      by rewrite overwrite_app by (rewrite length_fmap; simpl; lia). }
    assert (E2 : overwrite (S i * 3) (flat_ijk cs)
                   (overwrite (i * 3) [Cell.i c; Cell.j c; Cell.k c] d2) =
                 overwrite (i * 3) (flat_ijk (c :: cs)) d2).
    { replace (S i * 3)%nat
        with (i * 3 + length [Cell.i c; Cell.j c; Cell.k c])%nat
        by (simpl; lia).
      by rewrite overwrite_app by (rewrite length_flat_ijk; simpl; lia). }
    assert (E3 : overwrite (S i) (Cell.area <$> cs)
                   (overwrite i [Cell.area c] d3) =
                 overwrite i (Cell.area <$> c :: cs) d3).
    { replace (S i) with (i + length [Cell.area c])%nat by (simpl; lia).
      by rewrite overwrite_app by (rewrite length_fmap; simpl; lia). }
    assert (E4 : overwrite (ivref + length (Cell.vertices c))
                   (flat_vertex_refs cs)
                   (overwrite ivref (Vertex.index <$> Cell.vertices c) d4) =
                 overwrite ivref
                   ((Vertex.index <$> Cell.vertices c) ++ flat_vertex_refs cs)
                   d4).
    { replace (ivref + length (Cell.vertices c))%nat
        with (ivref + length (Vertex.index <$> Cell.vertices c))%nat
        by (rewrite length_fmap; lia).
      by rewrite overwrite_app by (rewrite length_fmap; lia). }
    assert (E5 : overwrite (S i)
                   (vertex_refs_starts (ivref + length (Cell.vertices c)) cs)
                   (overwrite i [Z.of_nat ivref] d5) =
                 overwrite i (vertex_refs_starts ivref (c :: cs)) d5).
    { replace (S i) with (i + length [Z.of_nat ivref])%nat by (simpl; lia).
      by rewrite overwrite_app
        by (rewrite length_vertex_refs_starts; simpl; lia). }
    rewrite E1, E2, E3, E4, E5, length_app, length_fmap.
    f_equal. f_equal; [f_equal|]; simpl; lia.
Qed.

(** ** The declared schema *)

Lemma string_app_inj (s a b : string) : s +:+ a = s +:+ b → a = b.
Proof. induction s as [|c s IH]; simpl; [done|]. intros [= H]. auto. Qed.

Ltac names_ne :=
  let H := fresh in intros H; apply string_app_inj in H; discriminate H.

Lemma get_or_add_dim_vars nc dname size :
  nc_vars (get_or_add_dim nc dname size) = nc_vars nc.
Proof. unfold get_or_add_dim. by destruct (nc_dims nc !! dname). Qed.

Lemma nc_vars_add_dim nc dname size :
  nc_vars (add_dim nc dname size) = nc_vars nc.
Proof. done. Qed.

Lemma nc_vars_add_var nc vname ty dims :
  nc_vars (add_var nc vname ty dims) =
  <[vname := mkNcVar dims (fill_values ty (foldr Nat.mul 1%nat dims)) ∅]>
    (nc_vars nc).
Proof. done. Qed.

Lemma nc_vars_add_var_att nc vname aname a :
  nc_vars (add_var_att nc vname aname a) =
  alter (λ var, add_att var aname a) vname (nc_vars nc).
Proof. done. Qed.

Ltac nc_vars_simpl :=
  repeat first
    [ rewrite nc_vars_add_var
    | rewrite nc_vars_add_dim
    | rewrite get_or_add_dim_vars
    | rewrite nc_vars_add_var_att ].

Ltac insert_lookup :=
  repeat first
    [ rewrite lookup_insert_eq
    | rewrite lookup_insert_ne by first [names_ne | done] ].

(** The info variable that [netcdf_define] leaves in the file. *)
Lemma netcdf_define_info g vname :
  ∃ info_var,
    nc_vars (netcdf_define g NcFile_Replace vname).1 !! (vname +:+ ".info") =
      Some info_var ∧
    info_matches info_var g.
Proof.
  unfold netcdf_define. cbv zeta. cbn [fst].
  destruct (coordinates g) eqn:Hc; nc_vars_simpl; insert_lookup;
    rewrite !lookup_alter_eq, lookup_insert_eq; cbn [fmap option_fmap option_map];
    eexists; (split; [reflexivity|]);
    unfold info_matches, att_as_string, att_as_int, get_att, add_att;
    cbn [var_atts]; rewrite Hc; insert_lookup;
    repeat split; try done; insert_lookup; done.
Qed.

(** The data variables that [netcdf_define] declares. *)
Lemma netcdf_define_data g vname :
  let vars := nc_vars (netcdf_define g NcFile_Replace vname).1 in
  let nvertices := length (_vertices g) in
  let ncells := length (_cells g) in
  vars !! (vname +:+ ".vertices.index") =
    Some (declared ncInt [nvertices]) ∧
  vars !! (vname +:+ ".vertices.xy") =
    Some (declared ncDouble [nvertices; 2%nat]) ∧
  vars !! (vname +:+ ".cells.index") = Some (declared ncInt [ncells]) ∧
  vars !! (vname +:+ ".cells.ijk") =
    Some (declared ncInt [ncells; 3%nat]) ∧
  vars !! (vname +:+ ".cells.area") = Some (declared ncDouble [ncells]) ∧
  vars !! (vname +:+ ".cells.vertex_refs") =
    Some (declared ncInt [count_vertex_refs (_cells g)]) ∧
  vars !! (vname +:+ ".cells.vertex_refs_start") =
    Some (declared ncInt [S ncells]).
Proof.
  intros vars nvertices ncells. subst vars nvertices ncells.
  unfold netcdf_define. cbv zeta. cbn [fst].
  unfold ncells_realized, nvertices_realized, dict_size.
  replace (Z.to_nat (Z.of_nat (length (_cells g)) + 1))
    with (S (length (_cells g))) by lia.
  rewrite !Nat2Z.id.
  destruct (coordinates g); nc_vars_simpl;
    repeat split; insert_lookup; done.
Qed.

Lemma length_vertices_sorted (d : Dict Vertex.t) :
  length (vertices_sorted d) = length d.
Proof.
  unfold vertices_sorted, dict_values.
  by rewrite merge_sort_Permutation, length_fmap.
Qed.

Lemma length_cells_sorted (d : Dict Cell.t) :
  length (cells_sorted d) = length d.
Proof.
  unfold cells_sorted, dict_values.
  by rewrite merge_sort_Permutation, length_fmap.
Qed.

Lemma count_vertex_refs_sorted (d : Dict Cell.t) :
  count_vertex_refs d = length (flat_vertex_refs (cells_sorted d)).
Proof.
  unfold count_vertex_refs. rewrite <- length_flat_vertex_refs.
  unfold flat_vertex_refs, cells_sorted.
  by rewrite merge_sort_Permutation.
Qed.

Lemma to_netcdf_unfold g vname :
  to_netcdf g vname =
  netcdf_write g (netcdf_define g NcFile_Replace vname).1 vname.
Proof. done. Qed.

(** What the encoder leaves in a fresh file. *)
Lemma to_netcdf_spec g vname :
  let vs := vertices_sorted (_vertices g) in
  let cs := cells_sorted (_cells g) in
  ∃ nc info_var,
    to_netcdf g vname = Ok nc ∧
    get_var nc (vname +:+ ".info") = Ok info_var ∧
    info_matches info_var g ∧
    get_var nc (vname +:+ ".vertices.index") =
      Ok (int_var [length vs] (Vertex.index <$> vs)) ∧
    get_var nc (vname +:+ ".vertices.xy") =
      Ok (double_var [length vs; 2%nat] (flat_xy vs)) ∧
    get_var nc (vname +:+ ".cells.index") =
      Ok (int_var [length cs] (Cell.index <$> cs)) ∧
    get_var nc (vname +:+ ".cells.ijk") =
      Ok (int_var [length cs; 3%nat] (flat_ijk cs)) ∧
    get_var nc (vname +:+ ".cells.area") =
      Ok (double_var [length cs] (Cell.area <$> cs)) ∧
    get_var nc (vname +:+ ".cells.vertex_refs") =
      Ok (int_var [length (flat_vertex_refs cs)] (flat_vertex_refs cs)) ∧
    get_var nc (vname +:+ ".cells.vertex_refs_start") =
      Ok (int_var [S (length cs)]
            (vertex_refs_starts 0 cs ++
               [Z.of_nat (length (flat_vertex_refs cs))])).
Proof.
  intros vs cs.
  destruct (netcdf_define_info g vname) as (info_var & Hinfo & Hmatch).
  destruct (netcdf_define_data g vname)
    as (H1 & H2 & H3 & H4 & H5 & H6 & H7).
  rewrite count_vertex_refs_sorted in H6. fold cs in H6.
  rewrite <- (length_vertices_sorted (_vertices g)) in H1, H2.
  rewrite <- (length_cells_sorted (_cells g)) in H3, H4, H5, H7.
  fold vs in H1, H2. fold cs in H3, H4, H5, H7.
  rewrite to_netcdf_unfold. unfold netcdf_write, get_var.
  rewrite H1, H2, H3, H4, H5, H6, H7. fold vs cs.
  unfold declared, fill_values. cbn [foldr mbind result_bind].
  rewrite write_vertices_spec by (rewrite length_replicate; lia).
  cbn [mbind result_bind].
  rewrite write_cells_spec by (rewrite length_replicate; lia).
  cbn [mbind result_bind cv_index cv_ijk cv_area cv_vertex_refs
    cv_vertex_refs_start].
  rewrite put_ints_overwrite
    by (rewrite length_overwrite;
        rewrite ?length_vertex_refs_starts, length_replicate; simpl; lia).
  cbn [mbind result_bind].
  eexists _, info_var. split; [reflexivity|].
  unfold set_var. cbn [nc_vars]. insert_lookup.
  split; [by rewrite Hinfo|]. split; [done|].
  unfold int_var, double_var.
  rewrite !overwrite_all
    by (rewrite length_replicate, ?length_fmap, ?length_flat_xy,
          ?length_flat_ijk; lia).
  repeat split; try done.
  do 3 f_equal.
  replace (0 + length cs)%nat
    with (0 + length (vertex_refs_starts 0 cs))%nat
    by (rewrite length_vertex_refs_starts; lia).
  rewrite overwrite_app
    by (rewrite length_replicate, length_vertex_refs_starts; simpl; lia).
  rewrite overwrite_all; [done|].
  rewrite length_app, length_replicate, length_vertex_refs_starts.
  simpl. lia.
Qed.

(** ** The read loops *)

Lemma vector_get_Ok {A} (v : list A) (ix : nat) a :
  v !! ix = Some a → vector_get v (Z.of_nat ix) = Ok a.
Proof.
  intros H. unfold vector_get.
  destruct (Z.ltb_spec (Z.of_nat ix) 0); [lia|].
  by rewrite Nat2Z.id, H.
Qed.

Lemma flat_xy_app vs1 vs2 : flat_xy (vs1 ++ vs2) = flat_xy vs1 ++ flat_xy vs2.
Proof. apply bind_app. Qed.

Lemma flat_ijk_app cs1 cs2 :
  flat_ijk (cs1 ++ cs2) = flat_ijk cs1 ++ flat_ijk cs2.
Proof. apply bind_app. Qed.

Lemma flat_vertex_refs_app cs1 cs2 :
  flat_vertex_refs (cs1 ++ cs2) =
  flat_vertex_refs cs1 ++ flat_vertex_refs cs2.
Proof. apply bind_app. Qed.

Lemma flat_vertex_refs_cons c cs :
  flat_vertex_refs (c :: cs) =
  (Vertex.index <$> Cell.vertices c) ++ flat_vertex_refs cs.
Proof. done. Qed.

Lemma flat_xy_lookup pre v rest :
  flat_xy (pre ++ v :: rest) !! (length pre * 2)%nat = Some (Vertex.x v) ∧
  flat_xy (pre ++ v :: rest) !! (length pre * 2 + 1)%nat = Some (Vertex.y v).
Proof.
  rewrite flat_xy_app. split.
  - rewrite lookup_app_r by (rewrite length_flat_xy; lia).
    rewrite length_flat_xy. by rewrite Nat.sub_diag.
  - rewrite lookup_app_r by (rewrite length_flat_xy; lia).
    rewrite length_flat_xy.
    by replace (length pre * 2 + 1 - length pre * 2)%nat with 1%nat by lia.
Qed.

Lemma flat_ijk_lookup pre c rest :
  flat_ijk (pre ++ c :: rest) !! (length pre * 3)%nat = Some (Cell.i c) ∧
  flat_ijk (pre ++ c :: rest) !! (length pre * 3 + 1)%nat = Some (Cell.j c) ∧
  flat_ijk (pre ++ c :: rest) !! (length pre * 3 + 2)%nat = Some (Cell.k c).
Proof.
  rewrite flat_ijk_app. repeat split.
  - rewrite lookup_app_r by (rewrite length_flat_ijk; lia).
    rewrite length_flat_ijk. by rewrite Nat.sub_diag.
  - rewrite lookup_app_r by (rewrite length_flat_ijk; lia).
    rewrite length_flat_ijk.
    by replace (length pre * 3 + 1 - length pre * 3)%nat with 1%nat by lia.
  - rewrite lookup_app_r by (rewrite length_flat_ijk; lia).
    rewrite length_flat_ijk.
    by replace (length pre * 3 + 2 - length pre * 3)%nat with 2%nat by lia.
Qed.

(** The offset array with its closing sentinel. *)
Lemma vertex_refs_starts_lookup ivref pre c rest :
  let starts :=
    vertex_refs_starts ivref (pre ++ c :: rest) ++
      [Z.of_nat (ivref + length (flat_vertex_refs (pre ++ c :: rest)))] in
  starts !! length pre =
    Some (Z.of_nat (ivref + length (flat_vertex_refs pre))) ∧
  starts !! S (length pre) =
    Some (Z.of_nat (ivref + length (flat_vertex_refs pre) + Cell.size c)).
Proof.
  revert ivref. induction pre as [|p pre IH]; intros ivref; cbn zeta.
  - cbn [app length vertex_refs_starts].
    rewrite flat_vertex_refs_cons, length_app, length_fmap.
    split.
    + simpl. do 2 f_equal. lia.
    + destruct rest as [|r rest]; simpl.
      * do 2 f_equal. unfold Cell.size. lia.
      * do 2 f_equal. lia.
  - cbn [app length vertex_refs_starts].
    specialize (IH (ivref + Cell.size p)%nat). cbn zeta in IH.
    rewrite flat_vertex_refs_cons, length_app, length_fmap.
    rewrite (flat_vertex_refs_cons p pre), length_app, length_fmap.
    unfold Cell.size in *.
    replace (ivref + (length (Cell.vertices p) +
               length (flat_vertex_refs (pre ++ c :: rest))))%nat
      with (ivref + length (Cell.vertices p) +
              length (flat_vertex_refs (pre ++ c :: rest)))%nat by lia.
    replace (ivref + (length (Cell.vertices p) +
               length (flat_vertex_refs pre)))%nat
      with (ivref + length (Cell.vertices p) +
              length (flat_vertex_refs pre))%nat by lia.
    exact IH.
Qed.

Lemma add_vertex_fresh vertex g :
  Vertex.index vertex ≠ -1 →
  Vertex.index vertex ∉ dict_keys (_vertices g) →
  ∃ g', add_vertex vertex g = (g', Ok vertex) ∧
        _vertices g' = _vertices g ++ [vertex_entry vertex] ∧
        _cells g' = _cells g.
Proof.
  intros Hex Hfresh.
  destruct (add_vertex_cases vertex g) as [[_ ->]|[Hl _]];
    rewrite assigned_vertex_explicit in * by done.
  - eexists. split; [done|]. done.
  - by apply dict_lookup_is_Some in Hl.
Qed.

Lemma add_cell_fresh cell g :
  Cell.index cell ≠ -1 →
  Cell.index cell ∉ dict_keys (_cells g) →
  ∃ g', add_cell cell g = (g', Ok cell) ∧
        _cells g' = _cells g ++ [cell_entry cell] ∧
        _vertices g' = _vertices g.
Proof.
  intros Hex Hfresh.
  destruct (add_cell_cases cell g) as [[_ ->]|[Hl _]];
    rewrite assigned_cell_explicit in * by done.
  - eexists. split; [done|]. done.
  - by apply dict_lookup_is_Some in Hl.
Qed.

Lemma read_vertices_spec (pre rest : list Vertex.t) g :
  Forall (λ v, Vertex.index v ≠ -1) rest →
  NoDup (Vertex.index <$> rest) →
  (∀ z, z ∈ Vertex.index <$> rest → z ∉ dict_keys (_vertices g)) →
  ∃ g',
    read_vertices (Vertex.index <$> rest) (length pre)
      (flat_xy (pre ++ rest)) g = Ok g' ∧
    _vertices g' = _vertices g ++ (vertex_entry <$> rest) ∧
    _cells g' = _cells g.
Proof.
  revert pre g. induction rest as [|v rest IH]; intros pre g Hex Hnd Hfresh.
  - exists g. simpl. by rewrite !app_nil_r.
  - apply Forall_cons in Hex as [Hv Hex]. rewrite fmap_cons in Hnd, Hfresh.
    apply NoDup_cons in Hnd as [Hvn Hnd].
    destruct (flat_xy_lookup pre v rest) as [Hx Hy].
    cbn [fmap list_fmap read_vertices].
    replace (Z.of_nat (length pre) * 2) with (Z.of_nat (length pre * 2))
      by lia.
    replace (Z.of_nat (length pre * 2) + 1)
      with (Z.of_nat (length pre * 2 + 1)) by lia.
    rewrite (vector_get_Ok _ _ _ Hx), (vector_get_Ok _ _ _ Hy).
    cbn [mbind result_bind].
    replace (Vertex.mk (Vertex.index v) (Vertex.x v) (Vertex.y v)) with v
      by by destruct v.
    destruct (add_vertex_fresh v g) as (g1 & Hadd & Hvs & Hcs);
      [done|apply Hfresh; left|].
    unfold or_throw. rewrite Hadd. cbn [fst snd mbind result_bind].
    destruct (IH (pre ++ [v]) g1) as (g' & Hread & Hvs' & Hcs');
      [done|done|..].
    { intros z Hz. rewrite Hvs. unfold dict_keys.
      rewrite fmap_app, elem_of_app. simpl.
      rewrite list_elem_of_singleton.
      intros [Hin| ->]; [|done]. revert Hin. apply Hfresh. by right. }
    exists g'. rewrite length_app, <- app_assoc in Hread. simpl in Hread.
    replace (length pre + 1)%nat with (S (length pre)) in Hread by lia.
    split; [done|]. split; [|congruence].
    rewrite Hvs', Hvs, <- app_assoc. done.
Qed.

Lemma read_vertex_refs_spec g (pre idxs post : list Z) cell :
  (∀ z, z ∈ idxs → z ∈ dict_keys (_vertices g)) →
  (∀ key v, dict_lookup key (_vertices g) = Some v → Vertex.index v = key) →
  ∃ vs',
    read_vertex_refs g (pre ++ idxs ++ post) (Z.of_nat (length pre))
      (length idxs) cell =
    Ok (Cell.mk (Cell.index cell) (Cell.vertices cell ++ vs') (Cell.i cell)
          (Cell.j cell) (Cell.k cell) (Cell.area cell)) ∧
    Vertex.index <$> vs' = idxs.
Proof.
  revert pre cell. induction idxs as [|z idxs IH]; intros pre cell Hin Hkey.
  - exists []. simpl. rewrite app_nil_r. by destruct cell.
  - cbn [length read_vertex_refs].
    assert (Hz : (pre ++ (z :: idxs) ++ post) !! length pre = Some z).
    { rewrite lookup_app_r by lia. by rewrite Nat.sub_diag. }
    rewrite (vector_get_Ok _ _ _ Hz). cbn [mbind result_bind].
    assert (Hsome : is_Some (dict_lookup z (_vertices g))).
    { apply dict_lookup_is_Some, Hin. left. }
    destruct Hsome as [v Hv]. unfold get_vertex_ref, get_vertex.
    rewrite Hv. cbn [mbind result_bind].
    destruct (IH (pre ++ [z]) (Cell.add_vertex v cell)) as (vs' & Hread & Hix).
    { intros z' Hz'. apply Hin. by right. }
    { done. }
    exists (v :: vs').
    rewrite length_app, <- app_assoc in Hread. simpl in Hread.
    replace (Z.of_nat (length pre + 1)) with (Z.of_nat (length pre) + 1)
      in Hread by lia.
    rewrite <- app_assoc in Hread. simpl in Hread.
    split; [exact Hread|]. rewrite fmap_cons, Hix. f_equal. eauto.
Qed.

Lemma read_cells_spec (pre rest : list Cell.t) g :
  Forall (λ c, Cell.index c ≠ -1) rest →
  NoDup (Cell.index <$> rest) →
  (∀ z, z ∈ Cell.index <$> rest → z ∉ dict_keys (_cells g)) →
  (∀ c v, c ∈ rest → v ∈ Cell.vertices c →
     Vertex.index v ∈ dict_keys (_vertices g)) →
  (∀ key v, dict_lookup key (_vertices g) = Some v → Vertex.index v = key) →
  ∃ g' rest',
    read_cells (Cell.index <$> rest) (length pre) (flat_ijk (pre ++ rest))
      (Cell.area <$> pre ++ rest) (flat_vertex_refs (pre ++ rest))
      (vertex_refs_starts 0 (pre ++ rest) ++
         [Z.of_nat (length (flat_vertex_refs (pre ++ rest)))]) g = Ok g' ∧
    _vertices g' = _vertices g ∧
    _cells g' = _cells g ++ (cell_entry <$> rest') ∧
    cell_record <$> rest' = cell_record <$> rest.
Proof.
  revert pre g. induction rest as [|c rest IH];
    intros pre g Hex Hnd Hfresh Howned Hkey.
  - exists g, []. simpl. by rewrite !app_nil_r.
  - apply Forall_cons in Hex as [Hc Hex]. rewrite fmap_cons in Hnd, Hfresh.
    apply NoDup_cons in Hnd as [Hcn Hnd].
    destruct (flat_ijk_lookup pre c rest) as (Hi & Hj & Hk).
    destruct (vertex_refs_starts_lookup 0 pre c rest) as [Hstart Hstop].
    cbn zeta in Hstart, Hstop. rewrite !Nat.add_0_l in Hstart, Hstop.
    assert (Harea : (Cell.area <$> pre ++ c :: rest) !! length pre =
                    Some (Cell.area c)).
    { rewrite list_lookup_fmap, lookup_app_r by lia.
      by rewrite Nat.sub_diag. }
    cbn [fmap list_fmap read_cells].
    replace (Z.of_nat (length pre) * 3 + 0) with (Z.of_nat (length pre * 3))
      by lia.
    replace (Z.of_nat (length pre) * 3 + 1)
      with (Z.of_nat (length pre * 3 + 1)) by lia.
    replace (Z.of_nat (length pre) * 3 + 2)
      with (Z.of_nat (length pre * 3 + 2)) by lia.
    replace (Z.of_nat (length pre) + 1) with (Z.of_nat (S (length pre)))
      by lia.
    rewrite (vector_get_Ok _ _ _ Hi), (vector_get_Ok _ _ _ Hj),
      (vector_get_Ok _ _ _ Hk), (vector_get_Ok _ _ _ Harea),
      (vector_get_Ok _ _ _ Hstart), (vector_get_Ok _ _ _ Hstop).
    cbn [mbind result_bind].
    replace (Z.to_nat
               (Z.of_nat (length (flat_vertex_refs pre) + Cell.size c) -
                Z.of_nat (length (flat_vertex_refs pre))))
      with (length (Vertex.index <$> Cell.vertices c))
      by (rewrite length_fmap; unfold Cell.size; lia).
    rewrite flat_vertex_refs_app, flat_vertex_refs_cons.
    destruct (read_vertex_refs_spec g (flat_vertex_refs pre)
                (Vertex.index <$> Cell.vertices c) (flat_vertex_refs rest)
                (Cell.mk (Cell.index c) [] (Cell.i c) (Cell.j c) (Cell.k c)
                   (Cell.area c)))
      as (vs' & Hrefs & Hix); [|done|].
    { intros z (v & -> & Hv)%list_elem_of_fmap.
      apply (Howned c v); [left|done]. }
    rewrite Hrefs. cbn [mbind result_bind Cell.index Cell.vertices Cell.i
      Cell.j Cell.k Cell.area app].
    set (c' := Cell.mk (Cell.index c) vs' (Cell.i c) (Cell.j c) (Cell.k c)
                 (Cell.area c)).
    destruct (add_cell_fresh c' g) as (g1 & Hadd & Hcs & Hvs);
      [done|apply Hfresh; left|].
    unfold or_throw. rewrite Hadd. cbn [fst snd mbind result_bind].
    destruct (IH (pre ++ [c]) g1) as (g' & rest' & Hread & Hvs' & Hcs' & Hrec);
      [done|done|..].
    { intros z Hz. rewrite Hcs. unfold dict_keys.
      rewrite fmap_app, elem_of_app. simpl.
      rewrite list_elem_of_singleton.
      intros [Hin| ->]; [|done]. revert Hin. apply Hfresh. by right. }
    { intros c0 v Hc0 Hv. rewrite Hvs. apply (Howned c0 v); [by right|done]. }
    { by rewrite Hvs. }
    exists g', (c' :: rest').
    rewrite length_app, <- !app_assoc in Hread. simpl in Hread.
    replace (length pre + 1)%nat with (S (length pre)) in Hread by lia.
    rewrite flat_vertex_refs_app, flat_vertex_refs_cons in Hread.
    split; [exact Hread|]. split; [congruence|]. split.
    + rewrite Hcs', Hcs, <- app_assoc. done.
    + rewrite !fmap_cons, Hrec. f_equal.
      unfold cell_record, c'. simpl. by rewrite Hix.
Qed.

(** ** The round trip *)

Lemma parse_GridType_str t : parse_GridType (GridType_str t) = Ok t.
Proof. by destruct t. Qed.

Lemma parse_Coordinates_str c : parse_Coordinates (Coordinates_str c) = Ok c.
Proof. by destruct c. Qed.

Lemma parse_Parameterization_str p :
  parse_Parameterization (Parameterization_str p) = Ok p.
Proof. by destruct p. Qed.

Lemma dict_lookup_Permutation {V} (d1 d2 : Dict V) key :
  d1 ≡ₚ d2 → NoDup (dict_keys d1) → dict_lookup key d1 = dict_lookup key d2.
Proof.
  intros Hp Hnd.
  assert (Hnd2 : NoDup (dict_keys d2)).
  { unfold dict_keys in *. by rewrite <- Hp. }
  destruct (dict_lookup key d1) as [v|] eqn:E.
  - symmetry. apply dict_lookup_NoDup; [done|]. rewrite <- Hp.
    by apply dict_lookup_Some.
  - symmetry. apply dict_lookup_None. apply dict_lookup_None in E.
    unfold dict_keys in *. by rewrite <- Hp.
Qed.

Lemma dict_lookup_fmap {V W} (f : V → W) (d : Dict V) key :
  f <$> dict_lookup key d =
  dict_lookup key ((λ kv : Z * V, (kv.1, f kv.2)) <$> d).
Proof.
  induction d as [|[k v] d IH]; simpl; [done|].
  by destruct (k =? key).
Qed.

Lemma vertex_entries_consistent (d : Dict Vertex.t) :
  Forall (λ kv : Z * Vertex.t, Vertex.index kv.2 = kv.1 ∧ kv.1 ≠ -1) d →
  vertex_entry <$> d.*2 = d ∧ Vertex.index <$> d.*2 = d.*1 ∧
  Forall (λ v, Vertex.index v ≠ -1) d.*2.
Proof.
  induction 1 as [|[k v] d [Hk Hne] _ (IH1 & IH2 & IH3)]; [done|].
  cbn [fst snd] in Hk, Hne. subst k.
  rewrite !fmap_cons. cbn [fst snd]. rewrite IH1, IH2.
  split; [done|]. split; [done|]. by constructor.
Qed.

Lemma cell_entries_consistent (d : Dict Cell.t) :
  Forall (λ kc : Z * Cell.t, Cell.index kc.2 = kc.1 ∧ kc.1 ≠ -1) d →
  cell_entry <$> d.*2 = d ∧ Cell.index <$> d.*2 = d.*1 ∧
  Forall (λ c, Cell.index c ≠ -1) d.*2.
Proof.
  induction 1 as [|[k c] d [Hk Hne] _ (IH1 & IH2 & IH3)]; [done|].
  cbn [fst snd] in Hk, Hne. subst k.
  rewrite !fmap_cons. cbn [fst snd]. rewrite IH1, IH2.
  split; [done|]. split; [done|]. by constructor.
Qed.

Lemma vertices_sorted_Permutation (d : Dict Vertex.t) :
  vertices_sorted d ≡ₚ d.*2.
Proof. apply merge_sort_Permutation. Qed.

Lemma cells_sorted_Permutation (d : Dict Cell.t) : cells_sorted d ≡ₚ d.*2.
Proof. apply merge_sort_Permutation. Qed.

(** Decoding what the encoder wrote: the decoded collections are the sorted
    entities of the grid, each filed under its own index, the cells with
    their vertices looked up again by index. *)
Lemma read_to_netcdf g vname g0 nc :
  grid_wf g →
  to_netcdf g vname = Ok nc →
  ∃ g' cs',
    read_from_netcdf nc vname g0 = Ok g' ∧
    _vertices g' = vertex_entry <$> vertices_sorted (_vertices g) ∧
    _cells g' = cell_entry <$> cs' ∧
    cell_record <$> cs' = cell_record <$> cells_sorted (_cells g).
Proof.
  intros (Hndv & Hndc & Hcv & Hcc & Howned) Hnc.
  destruct (to_netcdf_spec g vname)
    as (nc' & info_var & Hnc' & Hinfo & Hmatch & H1 & H2 & H3 & H4 & H5 &
        H6 & H7).
  rewrite Hnc in Hnc'. injection Hnc' as <-.
  destruct Hmatch as (Hname & Htype & Hcoord & Hparam & Hproj & Hcnf & Hvnf).
  destruct (vertex_entries_consistent _ Hcv) as (Hve & Hvi & Hvne).
  destruct (cell_entries_consistent _ Hcc) as (Hce & Hci & Hcne).
  pose proof (vertices_sorted_Permutation (_vertices g)) as Hvp.
  pose proof (cells_sorted_Permutation (_cells g)) as Hcp.
  set (vs := vertices_sorted (_vertices g)) in *.
  set (cs := cells_sorted (_cells g)) in *.
  unfold read_from_netcdf. rewrite Hinfo. cbn [mbind result_bind].
  rewrite Hname, Htype. cbn [mbind result_bind].
  rewrite parse_GridType_str, Hcoord. cbn [mbind result_bind].
  rewrite parse_Coordinates_str, Hparam. cbn [mbind result_bind].
  rewrite parse_Parameterization_str. cbn [mbind result_bind].
  assert (Hsproj :
    match coordinates g with
    | CoordXY => att_as_string info_var "projection"
    | CoordLONLAT => Ok ""
    end = Ok (match coordinates g with
              | CoordXY => sproj g
              | CoordLONLAT => ""
              end)).
  { destruct (coordinates g); [by apply Hproj|done]. }
  rewrite Hsproj, Hcnf, Hvnf. cbn [mbind result_bind].
  unfold read_int_vector, read_double_vector.
  rewrite H1, H2, H3, H4, H5, H6, H7.
  unfold int_var, double_var, get_dim0_size, get_doubles, get_ints.
  cbn [mbind result_bind var_values var_dims].
  rewrite !decide_True by (rewrite ?length_flat_xy, ?length_flat_ijk; lia).
  rewrite !take_ge by (rewrite ?length_flat_xy, ?length_flat_ijk; lia).
  cbn [mbind result_bind].
  match goal with
  | |- context [read_vertices _ 0 _ ?g1] =>
      destruct (read_vertices_spec [] vs g1) as (g2 & Hrv & Hvs2 & Hcs2)
  end.
  { by rewrite Hvp. }
  { by rewrite Hvp, Hvi. }
  { simpl. intros z _. apply not_elem_of_nil. }
  cbn [length app] in Hrv. rewrite Hrv. cbn [mbind result_bind].
  cbn [_vertices _cells clear with_cells with_vertices app] in Hvs2, Hcs2.
  destruct (read_cells_spec [] cs g2) as (g' & cs' & Hrc & Hvs' & Hcs' & Hrec).
  { by rewrite Hcp. }
  { by rewrite Hcp, Hci. }
  { rewrite Hcs2. simpl. intros z _. apply not_elem_of_nil. }
  { intros c v Hc Hv. rewrite Hvs2. unfold dict_keys.
    rewrite <- list_fmap_compose.
    change (fst ∘ vertex_entry) with Vertex.index.
    rewrite Hvp. rewrite Hcp in Hc.
    apply list_elem_of_fmap in Hc as ([key c0] & -> & Hc).
    unfold cell_vertices_owned in Howned.
    rewrite Forall_forall in Howned. specialize (Howned _ Hc).
    rewrite Forall_forall in Howned. by apply Howned. }
  { rewrite Hvs2. intros key v Hl%dict_lookup_Some.
    apply list_elem_of_fmap in Hl as (v0 & [= -> ->] & _). done. }
  cbn [length app] in Hrc. exists g', cs'. split; [exact Hrc|].
  split; [congruence|]. split; [|done]. by rewrite Hcs', Hcs2.
Qed.

#[local] Instance vertex_index_le_trans : Transitive vertex_index_le.
Proof. unfold vertex_index_le. intros x y z. lia. Qed.

#[local] Instance vertex_index_le_total : Total vertex_index_le.
Proof. unfold vertex_index_le. intros x y. lia. Qed.

#[local] Instance cell_index_le_trans : Transitive cell_index_le.
Proof. unfold cell_index_le. intros x y z. lia. Qed.

#[local] Instance cell_index_le_total : Total cell_index_le.
Proof. unfold cell_index_le. intros x y. lia. Qed.

Lemma NoDup_fmap_elem_inj {A B} (f : A → B) (l : list A) x y :
  NoDup (f <$> l) → x ∈ l → y ∈ l → f x = f y → x = y.
Proof.
  induction l as [|a l IH]; [by intros _ ?%elem_of_nil|].
  rewrite fmap_cons, NoDup_cons.
  intros [Ha Hnd] [->|Hx]%elem_of_cons [->|Hy]%elem_of_cons Hf; auto.
  - exfalso. apply Ha. rewrite Hf. by apply list_elem_of_fmap_2.
  - exfalso. apply Ha. rewrite <- Hf. by apply list_elem_of_fmap_2.
Qed.

(** Sorting by index forgets the insertion order. *)
Lemma vertices_sorted_canonical (d1 d2 : Dict Vertex.t) :
  d1 ≡ₚ d2 → NoDup (Vertex.index <$> d1.*2) →
  vertices_sorted d1 = vertices_sorted d2.
Proof.
  intros Hp Hnd.
  apply (StronglySorted_unique_strong vertex_index_le).
  - intros x1 x2 Hx1 Hx2 H12 H21. unfold vertices_sorted, dict_values in *.
    rewrite merge_sort_Permutation in Hx1, Hx2. rewrite <- Hp in Hx2.
    apply (NoDup_fmap_elem_inj Vertex.index d1.*2); [done..|].
    unfold vertex_index_le in *. lia.
  - apply StronglySorted_merge_sort; apply _.
  - apply StronglySorted_merge_sort; apply _.
  - unfold vertices_sorted, dict_values.
    by rewrite !merge_sort_Permutation, Hp.
Qed.

Lemma cells_sorted_canonical (d1 d2 : Dict Cell.t) :
  d1 ≡ₚ d2 → NoDup (Cell.index <$> d1.*2) →
  cells_sorted d1 = cells_sorted d2.
Proof.
  intros Hp Hnd.
  apply (StronglySorted_unique_strong cell_index_le).
  - intros x1 x2 Hx1 Hx2 H12 H21. unfold cells_sorted, dict_values in *.
    rewrite merge_sort_Permutation in Hx1, Hx2. rewrite <- Hp in Hx2.
    apply (NoDup_fmap_elem_inj Cell.index d1.*2); [done..|].
    unfold cell_index_le in *. lia.
  - apply StronglySorted_merge_sort; apply _.
  - apply StronglySorted_merge_sort; apply _.
  - unfold cells_sorted, dict_values.
    by rewrite !merge_sort_Permutation, Hp.
Qed.

Lemma cell_records_entries (cs : list Cell.t) :
  (λ kc : Z * Cell.t, (kc.1, cell_record kc.2)) <$> (cell_entry <$> cs) =
  (λ r : Z * Z * Z * Z * double * list Z, (r.1.1.1.1.1, r)) <$>
    (cell_record <$> cs).
Proof. rewrite <- !list_fmap_compose. by apply list_fmap_ext. Qed.

Lemma assigned_vertex_index_ne vertex g :
  Vertex.index (assigned_vertex vertex g) ≠ -1.
Proof.
  unfold assigned_vertex.
  destruct (Z.eqb_spec (Vertex.index vertex) (-1)); [|done].
  unfold dict_size. simpl. lia.
Qed.

Lemma assigned_cell_index_ne cell g :
  Cell.index (assigned_cell cell g) ≠ -1.
Proof.
  unfold assigned_cell.
  destruct (Z.eqb_spec (Cell.index cell) (-1)); [|done].
  unfold dict_size. simpl. lia.
Qed.

(** The entity part of the representation invariant holds in every grid
    built through the insertion and filter operations. *)
Lemma reachable_entities_wf g :
  reachable g →
  NoDup (dict_keys (_vertices g)) ∧
  NoDup (dict_keys (_cells g)) ∧
  Forall (λ kv : Z * Vertex.t, Vertex.index kv.2 = kv.1 ∧ kv.1 ≠ -1)
    (_vertices g) ∧
  Forall (λ kc : Z * Cell.t, Cell.index kc.2 = kc.1 ∧ kc.1 ≠ -1)
    (_cells g).
Proof.
  induction 1 as [ty|o g Hg (Hndv & Hndc & Hcv & Hcc)].
  - simpl. repeat split; constructor.
  - destruct o; simpl.
    + destruct (add_vertex_cases v g) as [[Hl ->]|[_ ->]]; simpl;
        [|done].
      apply dict_lookup_None in Hl. unfold dict_keys in *.
      rewrite fmap_app. simpl. repeat split; [|done| |done].
      * apply NoDup_app. split; [done|]. split; [|apply NoDup_singleton].
        intros z Hz ->%list_elem_of_singleton. done.
      * apply Forall_app. split; [done|]. constructor; [|done].
        split; [done|]. apply assigned_vertex_index_ne.
    + destruct (add_cell_cases c g) as [[Hl ->]|[_ ->]]; simpl; [|done].
      apply dict_lookup_None in Hl. unfold dict_keys in *.
      rewrite fmap_app. simpl. repeat split; [done| |done|].
      * apply NoDup_app. split; [done|]. split; [|apply NoDup_singleton].
        intros z Hz ->%list_elem_of_singleton. done.
      * apply Forall_app. split; [done|]. constructor; [|done].
        split; [done|]. apply assigned_cell_index_ne.
    + rewrite filter_cells_unfold. simpl. unfold kept_cells, dict_keys in *.
      repeat split.
      * eapply sublist_NoDup; [exact Hndv|].
        apply fmap_sublist, sublist_filter.
      * eapply sublist_NoDup; [exact Hndc|].
        apply fmap_sublist, sublist_filter.
      * apply Forall_forall. intros kv [_ Hin]%list_elem_of_filter.
        rewrite Forall_forall in Hcv. by apply Hcv.
      * apply Forall_forall. intros kc [_ Hin]%list_elem_of_filter.
        rewrite Forall_forall in Hcc. by apply Hcc.
Qed.

Lemma reachable_grid_wf g : reachable g → cell_vertices_owned g → grid_wf g.
Proof.
  intros (? & ? & ? & ?)%reachable_entities_wf ?. by repeat split.
Qed.

(** C1: for every grid (with the representation invariant of a grid),
    encoding into a fresh file ([netcdf_define], then the writer it
    returns) and decoding succeed, and the decoded grid has the same vertex
    set (same index, x, y under every index) and the same cell set (same
    index, i, j, k, area and ordered vertex indices under every index); two
    grids that hold the same entities in different insertion orders decode
    to the same tables. *)
Theorem codec_round_trip g vname g0 :
  grid_wf g →
  ∃ nc g',
    to_netcdf g vname = Ok nc ∧
    read_from_netcdf nc vname g0 = Ok g' ∧
    _vertices g' ≡ₚ _vertices g ∧
    (∀ ix, get_vertex g' ix = get_vertex g ix) ∧
    cell_records g' ≡ₚ cell_records g ∧
    (∀ ix, cell_record <$> get_cell g' ix = cell_record <$> get_cell g ix) ∧
    (∀ g2 nc2 g2',
       grid_wf g2 →
       _vertices g2 ≡ₚ _vertices g → _cells g2 ≡ₚ _cells g →
       to_netcdf g2 vname = Ok nc2 →
       read_from_netcdf nc2 vname g0 = Ok g2' →
       _vertices g2' = _vertices g' ∧ cell_records g2' = cell_records g').
Proof.
  intros Hwf.
  destruct (to_netcdf_spec g vname) as (nc & _ & Hnc & _).
  destruct (read_to_netcdf g vname g0 nc Hwf Hnc)
    as (g' & cs' & Hread & Hvs & Hcs & Hrec).
  pose proof Hwf as (Hndv & Hndc & Hcv & Hcc & Howned).
  destruct (vertex_entries_consistent _ Hcv) as (Hve & Hvi & _).
  destruct (cell_entries_consistent _ Hcc) as (Hce & Hci & _).
  assert (Hvperm : _vertices g' ≡ₚ _vertices g).
  { rewrite Hvs, vertices_sorted_Permutation. by rewrite Hve. }
  assert (Hcrec : cell_records g' =
    (λ r : Z * Z * Z * Z * double * list Z, (r.1.1.1.1.1, r)) <$>
      (cell_record <$> cells_sorted (_cells g))).
  { unfold cell_records. by rewrite Hcs, cell_records_entries, Hrec. }
  assert (Hcperm : cell_records g' ≡ₚ cell_records g).
  { rewrite Hcrec, cells_sorted_Permutation, <- cell_records_entries.
    unfold cell_records. by rewrite Hce. }
  exists nc, g'. split; [done|]. split; [done|]. split; [done|].
  split; [|split; [done|split]].
  - intros ix. unfold get_vertex. apply dict_lookup_Permutation; [done|].
    unfold dict_keys. by rewrite Hvperm.
  - intros ix. unfold get_cell. rewrite !dict_lookup_fmap.
    apply dict_lookup_Permutation; [done|].
    unfold dict_keys. fold (cell_records g'). rewrite Hcperm.
    unfold cell_records. rewrite <- list_fmap_compose.
    by erewrite list_fmap_ext; [exact Hndc|].
  - intros g2 nc2 g2' Hwf2 Hpv Hpc Hnc2 Hread2.
    destruct (read_to_netcdf g2 vname g0 nc2 Hwf2 Hnc2)
      as (g2'' & cs2' & Hread2' & Hvs2 & Hcs2 & Hrec2).
    rewrite Hread2 in Hread2'. injection Hread2' as <-.
    pose proof Hwf2 as (Hndv2 & Hndc2 & Hcv2 & Hcc2 & _).
    destruct (vertex_entries_consistent _ Hcv2) as (_ & Hvi2 & _).
    destruct (cell_entries_consistent _ Hcc2) as (_ & Hci2 & _).
    split.
    + rewrite Hvs2, Hvs. f_equal. apply vertices_sorted_canonical; [done|].
      rewrite Hvi2. exact Hndv2.
    + rewrite Hcrec. unfold cell_records.
      rewrite Hcs2, cell_records_entries, Hrec2. do 2 f_equal.
      apply cells_sorted_canonical; [done|]. rewrite Hci2. exact Hndc2.
Qed.

Lemma codec_round_trip_witness :
  ∃ nc g',
    to_netcdf strip_grid "grid" = Ok nc ∧
    read_from_netcdf nc "grid" (new_Grid GENERIC) = Ok g' ∧
    _vertices g' ≡ₚ _vertices strip_grid ∧
    cell_records g' ≡ₚ cell_records strip_grid.
Proof.
  destruct (codec_round_trip strip_grid "grid" (new_Grid GENERIC))
    as (nc & g' & Hnc & Hread & Hv & _ & Hc & _).
  - apply (bool_decide_unpack _). vm_compute. exact I.
  - by exists nc, g'.
Defined.

(** * Further properties of the mesh container *)

(** ** Insertion and lookup *)

Lemma dict_lookup_snoc_ne {V} (d : Dict V) key key' (val : V) :
  key ≠ key' → dict_lookup key' (d ++ [(key, val)]) = dict_lookup key' d.
Proof.
  intros Hne. rewrite dict_lookup_app. simpl.
  destruct (Z.eqb_spec key key'); [done|]. by destruct (dict_lookup key' d).
Qed.

Lemma dict_lookup_snoc_eq {V} (d : Dict V) key (val : V) :
  dict_lookup key d = None → dict_lookup key (d ++ [(key, val)]) = Some val.
Proof.
  intros Hnone. rewrite dict_lookup_app, Hnone. simpl.
  by rewrite Z.eqb_refl.
Qed.

(** X1: an insertion that goes through files the entity under the index it
    returns, where nothing was filed before, and changes no other lookup in
    either collection; an insertion that throws changes no lookup at all,
    and the only error it can throw is [DuplicateIndex]. *)
Theorem add_then_get g :
  (∀ cell g' c, add_cell cell g = (g', Ok c) →
     get_cell g' (Cell.index c) = Some c ∧
     get_cell g (Cell.index c) = None ∧
     (∀ ix, ix ≠ Cell.index c → get_cell g' ix = get_cell g ix) ∧
     (∀ ix, get_vertex g' ix = get_vertex g ix)) ∧
  (∀ cell g' e, add_cell cell g = (g', Err e) →
     e = DuplicateIndex ∧
     (∀ ix, get_cell g' ix = get_cell g ix) ∧
     (∀ ix, get_vertex g' ix = get_vertex g ix)) ∧
  (∀ vertex g' v, add_vertex vertex g = (g', Ok v) →
     get_vertex g' (Vertex.index v) = Some v ∧
     get_vertex g (Vertex.index v) = None ∧
     (∀ ix, ix ≠ Vertex.index v → get_vertex g' ix = get_vertex g ix) ∧
     (∀ ix, get_cell g' ix = get_cell g ix)) ∧
  (∀ vertex g' e, add_vertex vertex g = (g', Err e) →
     e = DuplicateIndex ∧
     (∀ ix, get_vertex g' ix = get_vertex g ix) ∧
     (∀ ix, get_cell g' ix = get_cell g ix)).
Proof.
  repeat apply conj.
  - intros cell g' c Hadd.
    destruct (add_cell_cases cell g) as [[Hnone E]|[_ E]];
      rewrite E in Hadd; [|done].
    injection Hadd as <- <-. unfold get_cell, get_vertex in *. simpl.
    split; [by apply dict_lookup_snoc_eq|]. split; [done|].
    split; [|done]. intros ix Hne. by apply dict_lookup_snoc_ne.
  - intros cell g' e Hadd.
    destruct (add_cell_cases cell g) as [[_ E]|[_ E]];
      rewrite E in Hadd; [done|].
    by injection Hadd as <- <-.
  - intros vertex g' v Hadd.
    destruct (add_vertex_cases vertex g) as [[Hnone E]|[_ E]];
      rewrite E in Hadd; [|done].
    injection Hadd as <- <-. unfold get_cell, get_vertex in *. simpl.
    split; [by apply dict_lookup_snoc_eq|]. split; [done|].
    split; [|done]. intros ix Hne. by apply dict_lookup_snoc_ne.
  - intros vertex g' e Hadd.
    destruct (add_vertex_cases vertex g) as [[_ E]|[_ E]];
      rewrite E in Hadd; [done|].
    by injection Hadd as <- <-.
Qed.

Lemma add_then_get_witness :
  get_cell (add_cell right_cell square_grid).1 1 =
    Some (Cell.with_index 1 right_cell) ∧
  get_cell (add_cell right_cell square_grid).1 0 = get_cell square_grid 0.
Proof.
  destruct (add_then_get square_grid) as (Hc & _).
  destruct (Hc right_cell (add_cell right_cell square_grid).1
              (Cell.with_index 1 right_cell)) as (Hget & _ & Hother & _).
  - reflexivity.
  - split; [exact Hget|]. by apply Hother.
Defined.

(** X2: in every grid built from a fresh one by insertions and filters, the
    entities of each collection have pairwise distinct indices, each is
    filed under its own index and found again by looking that index up, and
    none carries the "unassigned" sentinel. *)
Theorem reachable_unique_indices g :
  reachable g →
  NoDup (cell_indices g) ∧
  NoDup (vertex_indices g) ∧
  (∀ key cell, (key, cell) ∈ _cells g ↔
     get_cell g key = Some cell) ∧
  (∀ key vertex, (key, vertex) ∈ _vertices g ↔
     get_vertex g key = Some vertex) ∧
  (∀ key cell, get_cell g key = Some cell →
     Cell.index cell = key ∧ key ≠ -1) ∧
  (∀ key vertex, get_vertex g key = Some vertex →
     Vertex.index vertex = key ∧ key ≠ -1).
Proof.
  intros (Hndv & Hndc & Hcv & Hcc)%reachable_entities_wf.
  destruct (vertex_entries_consistent _ Hcv) as (_ & Hvi & _).
  destruct (cell_entries_consistent _ Hcc) as (_ & Hci & _).
  unfold cell_indices, vertex_indices, get_cell, get_vertex.
  rewrite Hvi, Hci. rewrite Forall_forall in Hcv. rewrite Forall_forall in Hcc.
  repeat apply conj; try done.
  - intros key cell. split; [by apply dict_lookup_NoDup|].
    apply dict_lookup_Some.
  - intros key vertex. split; [by apply dict_lookup_NoDup|].
    apply dict_lookup_Some.
  - intros key cell Hin%dict_lookup_Some. apply (Hcc _ Hin).
  - intros key vertex Hin%dict_lookup_Some. apply (Hcv _ Hin).
Qed.

Lemma reachable_unique_indices_witness :
  NoDup (cell_indices (filter_cells (λ ix, ix =? 1) strip_grid)).
Proof.
  apply reachable_unique_indices.
  apply (reach_step (OpFilterCells _)), reachable_run_ops. constructor.
Defined.

(** ** Filters compose *)

Lemma kept_cells_filter P Q g :
  kept_cells P (filter_cells Q g) = kept_cells (λ ix, Q ix && P ix) g.
Proof.
  unfold kept_cells. rewrite filter_cells_unfold. simpl. unfold kept_cells.
  rewrite list_filter_filter. apply list_filter_iff.
  intros [key cell]. simpl. rewrite andb_true_iff. tauto.
Qed.

Lemma good_vertices_filter P Q g :
  good_vertices P (filter_cells Q g) = good_vertices (λ ix, Q ix && P ix) g.
Proof. unfold good_vertices. by rewrite kept_cells_filter. Qed.

Lemma good_vertices_weaken P Q g z :
  z ∈ good_vertices (λ ix, Q ix && P ix) g → z ∈ good_vertices Q g.
Proof.
  unfold good_vertices. rewrite !elem_of_good_vertices.
  intros [?|(c & v & Hc & Hv & Hz)]; [by left|]. right. exists c, v.
  split; [|done].
  apply list_elem_of_fmap in Hc as ([key c'] & -> & Hc).
  apply list_elem_of_fmap. exists (key, c'). split; [done|].
  unfold kept_cells in *. apply list_elem_of_filter in Hc as [HP Hin].
  apply list_elem_of_filter. split; [|done].
  simpl in *. by apply andb_true_iff in HP as [? _].
Qed.

Lemma ncells_full_filter_cells P g :
  ncells_full (filter_cells P g) = ncells_full g ∧
  nvertices_full (filter_cells P g) = nvertices_full g.
Proof.
  destruct (filter_cells_full_fields P g) as [Ec Ev].
  pose proof (ncells_full_nonneg g). pose proof (nvertices_full_nonneg g).
  by rewrite ncells_full_set, nvertices_full_set by lia.
Qed.

(** X3: filtering by [Q] and then by [P] leaves exactly the grid that one
    filter by "[Q] and [P]" leaves: same cells, same vertices, same trackers
    and same frozen domain sizes.  In particular filtering twice by the same
    predicate changes nothing the second time, and two filters commute up
    to the order of the conjunction. *)
Theorem filter_cells_compose P Q g :
  filter_cells P (filter_cells Q g) = filter_cells (λ ix, Q ix && P ix) g ∧
  filter_cells P (filter_cells P g) = filter_cells P g.
Proof.
  assert (Hcomp : ∀ P Q,
    filter_cells P (filter_cells Q g) =
    filter_cells (λ ix, Q ix && P ix) g).
  { clear P Q. intros P Q.
    rewrite (filter_cells_unfold P (filter_cells Q g)).
    rewrite good_vertices_filter, kept_cells_filter.
    destruct (ncells_full_filter_cells Q g) as [-> ->].
    rewrite (filter_cells_unfold (λ ix, Q ix && P ix) g).
    assert (Hv :
      filter (λ kv : Z * Vertex.t,
                Vertex.index kv.2 ∈ good_vertices (λ ix, Q ix && P ix) g)
        (_vertices (filter_cells Q g)) =
      filter (λ kv : Z * Vertex.t,
                Vertex.index kv.2 ∈ good_vertices (λ ix, Q ix && P ix) g)
        (_vertices g)).
    { rewrite (filter_cells_unfold Q g). simpl.
      apply list_filter_filter_l. intros kv. apply good_vertices_weaken. }
    rewrite Hv. by rewrite (filter_cells_unfold Q g). }
  split; [apply Hcomp|].
  rewrite Hcomp, !filter_cells_unfold.
  assert (Hk : kept_cells (λ ix, P ix && P ix) g = kept_cells P g).
  { unfold kept_cells. apply list_filter_iff. intros [key cell]. simpl.
    by rewrite andb_diag. }
  unfold good_vertices. by rewrite Hk.
Qed.

(** ** The size of the field vectors *)

Lemma run_op_parameterization o g :
  parameterization (run_op o g) = parameterization g.
Proof.
  destruct o; simpl.
  - by destruct (add_vertex_cases v g) as [[_ ->]|[_ ->]].
  - by destruct (add_cell_cases c g) as [[_ ->]|[_ ->]].
  - by rewrite filter_cells_unfold.
Qed.

Lemma run_ops_parameterization ops g :
  parameterization (run_ops ops g) = parameterization g.
Proof.
  revert g. induction ops as [|o ops IH]; intros g; simpl; [done|].
  by rewrite IH, run_op_parameterization.
Qed.

(** X4: [ndata()], the size callers give their field vectors, reads the
    same after [filter_cells] as before it, and keeps that value through
    every later insertion and filter. *)
Theorem ndata_frozen P ops g :
  ndata (filter_cells P g) = ndata g ∧
  ndata (run_ops ops (filter_cells P g)) = ndata g.
Proof.
  assert (H : ∀ ops, ndata (run_ops ops (filter_cells P g)) = ndata g).
  { clear ops. intros ops. unfold ndata.
    rewrite run_ops_parameterization.
    change (filter_cells P g) with (run_op (OpFilterCells P) g) at 1.
    rewrite run_op_parameterization.
    destruct (filter_cells_full_fields P g) as [Ec Ev].
    pose proof (ncells_full_nonneg g). pose proof (nvertices_full_nonneg g).
    destruct (run_ops_frozen ops (filter_cells P g)) as [Ec' Ev']; [lia..|].
    rewrite ncells_full_set, nvertices_full_set by lia.
    rewrite Ec', Ev', Ec, Ev. done. }
  split; [apply (H [])|apply H].
Qed.

(** * Further properties of the mesh codec *)

(** ** What one insertion keeps *)

Lemma add_vertex_entities_wf vertex g :
  entities_wf g → entities_wf (add_vertex vertex g).1.
Proof.
  intros (Hndv & Hndc & Hcv & Hcc).
  destruct (add_vertex_cases vertex g) as [[Hl ->]|[_ ->]]; simpl; [|done].
  apply dict_lookup_None in Hl. unfold entities_wf, dict_keys in *. simpl.
  rewrite fmap_app. simpl. split; [|split; [done|split; [|done]]].
  - apply NoDup_app. split; [done|]. split; [|apply NoDup_singleton].
    intros z Hz ->%list_elem_of_singleton. done.
  - apply Forall_app. split; [done|]. constructor; [|done].
    split; [done|]. apply assigned_vertex_index_ne.
Qed.

Lemma add_cell_entities_wf cell g :
  entities_wf g → entities_wf (add_cell cell g).1.
Proof.
  intros (Hndv & Hndc & Hcv & Hcc).
  destruct (add_cell_cases cell g) as [[Hl ->]|[_ ->]]; simpl; [|done].
  apply dict_lookup_None in Hl. unfold entities_wf, dict_keys in *. simpl.
  rewrite fmap_app. simpl. split; [done|split; [|split; [done|]]].
  - apply NoDup_app. split; [done|]. split; [|apply NoDup_singleton].
    intros z Hz ->%list_elem_of_singleton. done.
  - apply Forall_app. split; [done|]. constructor; [|done].
    split; [done|]. apply assigned_cell_index_ne.
Qed.

Lemma same_header_refl g : same_header g g.
Proof. by repeat split. Qed.

Lemma same_header_trans g1 g2 g3 :
  same_header g1 g2 → same_header g2 g3 → same_header g1 g3.
Proof.
  unfold same_header. intros (?&?&?&?&?&?&?) (?&?&?&?&?&?&?).
  repeat split; congruence.
Qed.

Lemma add_vertex_same_header vertex g : same_header g (add_vertex vertex g).1.
Proof. by destruct (add_vertex_cases vertex g) as [[_ ->]|[_ ->]]. Qed.

Lemma add_cell_same_header cell g : same_header g (add_cell cell g).1.
Proof. by destruct (add_cell_cases cell g) as [[_ ->]|[_ ->]]. Qed.

Lemma or_throw_Ok {A} (r : Grid * result A) g' :
  or_throw r = Ok g' → g' = r.1 ∧ ∃ a, r.2 = Ok a.
Proof.
  unfold or_throw. destruct r as [g1 [a|e]]; simpl; [|done].
  intros [= <-]. eauto.
Qed.

(** A vertex insertion that went through, seen from the grid it leaves. *)
Lemma add_vertex_Ok vertex g a :
  (add_vertex vertex g).2 = Ok a →
  _vertices (add_vertex vertex g).1 =
    _vertices g ++ [vertex_entry (assigned_vertex vertex g)] ∧
  _cells (add_vertex vertex g).1 = _cells g ∧
  _max_realized_cell_index (add_vertex vertex g).1 =
    _max_realized_cell_index g ∧
  _max_realized_vertex_index g ≤
    _max_realized_vertex_index (add_vertex vertex g).1.
Proof.
  destruct (add_vertex_cases vertex g) as [[_ ->]|[_ ->]]; simpl; [|done].
  intros _. repeat split. lia.
Qed.

Lemma add_cell_Ok cell g a :
  (add_cell cell g).2 = Ok a →
  _cells (add_cell cell g).1 =
    _cells g ++ [cell_entry (assigned_cell cell g)] ∧
  _vertices (add_cell cell g).1 = _vertices g ∧
  _max_realized_vertex_index (add_cell cell g).1 =
    _max_realized_vertex_index g ∧
  _max_realized_cell_index g ≤ _max_realized_cell_index (add_cell cell g).1.
Proof.
  destruct (add_cell_cases cell g) as [[_ ->]|[_ ->]]; simpl; [|done].
  intros _. repeat split. lia.
Qed.

(** ** The read loops on an arbitrary file *)

Ltac bind_inv H :=
  repeat match type of H with
  | mbind _ ?r = Ok _ =>
      let E := fresh "E" in
      destruct r eqn:E; cbn [mbind result_bind] in H; [|discriminate H]
  end.

Lemma read_vertices_inv vertices_index i vertices_xy g g' :
  read_vertices vertices_index i vertices_xy g = Ok g' →
  same_header g g' ∧
  _cells g' = _cells g ∧
  _max_realized_cell_index g' = _max_realized_cell_index g ∧
  _max_realized_vertex_index g ≤ _max_realized_vertex_index g' ∧
  dict_keys (_vertices g') =
    dict_keys (_vertices g) ++
      decoded_keys (length (_vertices g)) vertices_index ∧
  (entities_wf g → entities_wf g') ∧
  (max_realized_invariant g → max_realized_invariant g').
Proof.
  revert i g. induction vertices_index as [|index rest IH]; intros i g Hread.
  - injection Hread as <-. simpl. rewrite app_nil_r.
    split; [apply same_header_refl|]. split; [done|]. split; [done|].
    split; [lia|]. split; [done|]. split; done.
  - cbn [read_vertices] in Hread. bind_inv Hread.
    apply or_throw_Ok in E1 as [-> [v Hv]].
    set (vertex := Vertex.mk index a a0) in *.
    destruct (add_vertex_Ok _ _ _ Hv) as (Hvs & Hcs & Hmc & Hmv).
    destruct (IH _ _ Hread) as (Hh & Hc' & Hmc' & Hmv' & Hk & Hwf & Hinv).
    split; [eapply same_header_trans;
            [apply (add_vertex_same_header vertex)|done]|].
    split; [congruence|]. split; [congruence|]. split; [lia|].
    split; [|split].
    + rewrite Hk, Hvs. unfold dict_keys. rewrite fmap_app, length_app.
      simpl. rewrite <- app_assoc. simpl. do 2 f_equal.
      * unfold assigned_vertex, vertex, dict_size. simpl.
        by destruct (index =? -1).
      * f_equal. lia.
    + intros ?. by apply Hwf, add_vertex_entities_wf.
    + intros ?. by apply Hinv, add_vertex_invariant.
Qed.

Lemma read_vertex_refs_inv g vrefs j n cell cell' :
  read_vertex_refs g vrefs j n cell = Ok cell' →
  Forall (λ v, Vertex.index v ∈ vertex_indices g) (Cell.vertices cell) →
  Cell.index cell' = Cell.index cell ∧
  length (Cell.vertices cell') = (length (Cell.vertices cell) + n)%nat ∧
  Forall (λ v, Vertex.index v ∈ vertex_indices g) (Cell.vertices cell').
Proof.
  revert j cell. induction n as [|n IH]; intros j cell Hread Hall.
  - injection Hread as <-. split; [done|]. split; [lia|done].
  - cbn [read_vertex_refs] in Hread. bind_inv Hread.
    unfold get_vertex_ref, get_vertex in E0.
    destruct (dict_lookup a (_vertices g)) as [v|] eqn:Hv; [|done].
    injection E0 as <-.
    destruct (IH _ _ Hread) as (Hix & Hlen & Hall').
    { simpl. apply Forall_app. split; [done|]. constructor; [|done].
      apply dict_lookup_Some in Hv. unfold vertex_indices.
      apply list_elem_of_fmap. exists v. split; [done|].
      apply list_elem_of_fmap. by exists (a, v). }
    split; [done|]. split; [|done].
    rewrite Hlen. simpl. rewrite length_app. simpl. lia.
Qed.

Lemma read_cells_inv cells_index i cells_ijk cells_area vrefs vrefs_start
    g g' :
  read_cells cells_index i cells_ijk cells_area vrefs vrefs_start g = Ok g' →
  same_header g g' ∧
  _vertices g' = _vertices g ∧
  _max_realized_vertex_index g' = _max_realized_vertex_index g ∧
  _max_realized_cell_index g ≤ _max_realized_cell_index g' ∧
  dict_keys (_cells g') =
    dict_keys (_cells g) ++ decoded_keys (length (_cells g)) cells_index ∧
  (entities_wf g → entities_wf g') ∧
  (max_realized_invariant g → max_realized_invariant g') ∧
  (cell_vertices_owned g → cell_vertices_owned g').
Proof.
  revert i g. induction cells_index as [|index rest IH]; intros i g Hread.
  - injection Hread as <-. simpl. rewrite app_nil_r.
    split; [apply same_header_refl|]. split; [done|]. split; [done|].
    split; [lia|]. split; [done|]. split; [done|]. split; done.
  - cbn [read_cells] in Hread. bind_inv Hread.
    apply or_throw_Ok in E6 as [-> [c Hc]].
    destruct (add_cell_Ok _ _ _ Hc) as (Hcs & Hvs & Hmv & Hmc).
    destruct (IH _ _ Hread)
      as (Hh & Hv' & Hmv' & Hmc' & Hk & Hwf & Hinv & Hown).
    destruct (read_vertex_refs_inv _ _ _ _ _ _ E5) as (Hix & _ & Hall);
      [by constructor|].
    split; [eapply same_header_trans;
            [apply (add_cell_same_header a5)|done]|].
    split; [congruence|]. split; [congruence|]. split; [lia|].
    split; [|split; [|split]].
    + rewrite Hk, Hcs. unfold dict_keys. rewrite fmap_app, length_app.
      simpl. rewrite <- app_assoc. simpl. do 2 f_equal.
      * unfold assigned_cell, dict_size. rewrite Hix. simpl.
        by destruct (index =? -1).
      * f_equal. lia.
    + intros ?. by apply Hwf, add_cell_entities_wf.
    + intros ?. by apply Hinv, add_cell_invariant.
    + intros Howned. apply Hown. unfold cell_vertices_owned, vertex_indices.
      rewrite Hcs, Hvs. apply Forall_app. split; [done|].
      constructor; [|done]. simpl.
      unfold assigned_cell. by destruct (Cell.index a5 =? -1).
Qed.

(** ** Decoding an arbitrary file *)

Lemma empty_grid_wf g :
  _vertices g = [] → _cells g = [] →
  entities_wf g ∧ cell_vertices_owned g ∧ max_realized_invariant g.
Proof.
  unfold entities_wf, cell_vertices_owned, max_realized_invariant.
  intros -> ->. simpl. split; [|split].
  - split; [apply NoDup_nil_2|]. split; [apply NoDup_nil_2|].
    split; apply Forall_nil_2.
  - apply Forall_nil_2.
  - split; by intros ? ? ?%elem_of_nil.
Qed.

(** Everything a successful decode tells about the file and the grid. *)
Lemma read_from_netcdf_inv nc vname g0 g' :
  read_from_netcdf nc vname g0 = Ok g' →
  ∃ info_var vertices_index cells_index stype scoord sparam sncells,
    get_var nc (vname +:+ ".info") = Ok info_var ∧
    read_int_vector nc (vname +:+ ".vertices.index") = Ok vertices_index ∧
    read_int_vector nc (vname +:+ ".cells.index") = Ok cells_index ∧
    att_as_string info_var "name" = Ok (name g') ∧
    att_as_string info_var "type" = Ok stype ∧
    parse_GridType stype = Ok (type g') ∧
    att_as_string info_var "coordinates" = Ok scoord ∧
    parse_Coordinates scoord = Ok (coordinates g') ∧
    att_as_string info_var "parameterization" = Ok sparam ∧
    parse_Parameterization sparam = Ok (parameterization g') ∧
    match coordinates g' with
    | CoordXY => att_as_string info_var "projection" = Ok (sproj g')
    | CoordLONLAT => sproj g' = ""
    end ∧
    att_as_string info_var "cells.num_full" = Ok sncells ∧
    _ncells_full g' = default (_ncells_full g0) (sscanf_ld sncells) ∧
    att_as_int info_var "vertices.num_full" = Ok (_nvertices_full g') ∧
    dict_keys (_vertices g') = decoded_keys 0 vertices_index ∧
    dict_keys (_cells g') = decoded_keys 0 cells_index ∧
    entities_wf g' ∧ cell_vertices_owned g' ∧ max_realized_invariant g' ∧
    _max_realized_cell_index g0 ≤ _max_realized_cell_index g' ∧
    _max_realized_vertex_index g0 ≤ _max_realized_vertex_index g'.
Proof.
  intros H. unfold read_from_netcdf in H. cbv zeta in H. bind_inv H.
  match goal with
  | Hv : read_vertices _ _ _ ?g1 = Ok _ |- _ =>
      destruct (empty_grid_wf g1) as (Hwf0 & Hown0 & Hinv0); [done..|];
      apply read_vertices_inv in Hv
        as (Hh1 & Hc1 & Hmc1 & Hmv1 & Hk1 & Hwf1 & Hinv1)
  end.
  apply read_cells_inv in H
    as (Hh2 & Hv2 & Hmv2 & Hmc2 & Hk2 & Hwf2 & Hinv2 & Hown2).
  destruct Hh1 as (Ht1 & Hco1 & Hp1 & Hn1 & Hs1 & Hcf1 & Hvf1).
  destruct Hh2 as (Ht2 & Hco2 & Hp2 & Hn2 & Hs2 & Hcf2 & Hvf2).
  cbn [type coordinates parameterization name sproj _vertices _cells
       _ncells_full _nvertices_full _max_realized_cell_index
       _max_realized_vertex_index clear with_cells with_vertices
       dict_keys length app fmap list_fmap] in *.
  assert (Hwf : entities_wf g') by auto.
  assert (Hinv : max_realized_invariant g') by auto.
  assert (Hown : cell_vertices_owned g').
  { apply Hown2. unfold cell_vertices_owned. rewrite Hc1.
    apply Forall_nil_2. }
  rewrite Hc1 in Hk2. cbn [length app fmap list_fmap] in Hk2.
  exists a, a10, a15, a1, a3, a5, a8.
  rewrite Ht2, Hco2, Hp2, Hn2, Hs2, Hcf2, Hvf2, Hv2.
  rewrite Ht1, Hco1, Hp1, Hn1, Hs1, Hcf1, Hvf1.
  split; [done|]. split; [done|]. split; [done|]. split; [done|].
  split; [done|]. split; [done|]. split; [done|]. split; [done|].
  split; [done|]. split; [done|].
  split; [destruct a4; congruence|]. split; [done|]. split; [done|].
  split; [done|]. split; [done|]. split; [done|].
  split; [done|]. split; [done|]. split; [done|]. split; lia.
Qed.
